(** * Error ledger and error-bound solver of the KLEE numerical-error extension

    A shallow embedding of [lib/Core/SymbolicError.cpp] and
    [lib/Solver/Z3ErrorSolver.cpp], with the properties of the two
    components stated and proved over it.

    Conventions of the embedding:
    - a C++ pointer that may be null ([llvm::Value *], [const Array *],
      [ref<Expr>]) is an address with a distinguished null or an [option];
    - [std::map] is a [gmap]; [operator[]] is [subscript], which inserts a
      default (null) entry when the key is absent, exactly as the C++ does;
    - [assert], [abort] and [llvm_unreachable] end the run with a [Fault]
      (assertions are modelled as enabled);
    - the state of an object is passed explicitly. *)

From Stdlib Require Import ZArith SpecFloat.
From stdpp Require Import gmap strings list fin_maps pretty.

Open Scope Z_scope.

(** ** Abnormal termination *)

Inductive Fault : Type :=
| AssertionFailed (msg : string)   (* assert(cond && msg) with cond false *)
| Aborted (reason : string)        (* klee_warning(...); abort() *)
| Unreachable (msg : string)       (* llvm_unreachable(msg) *)
| NullDereference                  (* use of a null dyn_cast result *)
| OutOfRange.                      (* operand or vector index past the end *)

#[global] Instance Fault_eq_dec : EqDecision Fault.
Proof. solve_decision. Defined.

#[global] Instance fault_ret : MRet (sum Fault) := λ A x, inr x.
#[global] Instance fault_bind : MBind (sum Fault) :=
  λ A B f m, match m with inl e => inl e | inr x => f x end.

Definition fail {A : Type} (e : Fault) : Fault + A := inl e.

(** [std::map::operator[]] on a map whose values are nullable: the value
    found, or null after inserting a null entry for the key. *)
Definition subscript {K : Type} `{Countable K} {V : Type}
    (m : gmap K (option V)) (k : K) : option V * gmap K (option V) :=
  match m !! k with
  | Some v => (v, m)
  | None => (None, <[k := None]> m)
  end.

(** ** Expression IR *)

Definition Width := N.
Definition Int8 : Width := 8%N.

(** Modelled from the spec: the [Array] class of the expression library
    is not among the sources.  A symbolic array is a named buffer with a
    size; its identity is its name and size (the array cache hands out one
    object per such pair), so the record itself stands for [const Array *]
    and [option Array] for a pointer that may be null. *)
Record Array : Type := mkArray { name : string; size : N }.

#[global] Instance Array_eq_dec : EqDecision Array.
Proof. solve_decision. Defined.

Definition Array_to_pair (a : Array) : string * N := (name a, size a).
Definition Array_of_pair (p : string * N) : Array := mkArray p.1 p.2.

#[global] Instance Array_countable : Countable Array :=
  inj_countable' Array_to_pair Array_of_pair
    (λ a, match a with mkArray _ _ => eq_refl end).

(** Modelled from the spec: the node variants of the expression IR
    (section 3 of the specification); the [Expr] classes themselves are not
    among the sources.  A [Read] carries the root array of its update list
    ([updates.root]); the ledger builds update lists with a null head only
    and reads nothing but the root.  The value of a [Constant] is the
    unsigned integer [getZExtValue] returns.  [Extract] stands for the kinds
    the ledger has no case for. *)
Inductive Expr : Type :=
| Constant (value : Z) (width : Width)
| Read (root : Array) (index : Expr)
| Concat (l r : Expr)
| SExt (kid : Expr) (width : Width)
| ZExt (kid : Expr) (width : Width)
| Add (l r : Expr)
| Sub (l r : Expr)
| Mul (l r : Expr)
| UDiv (l r : Expr)
| SDiv (l r : Expr)
| Extract (kid : Expr) (offset : N) (width : Width).

#[global] Instance Expr_eq_dec : EqDecision Expr.
Proof. solve_decision. Defined.

Arguments Constant value%_Z width%_N.
Arguments SExt kid width%_N.
Arguments ZExt kid width%_N.
Arguments Extract kid offset%_N width%_N.

(** [llvm::isa<ConstantExpr>(e)]. *)
Definition isConstant (e : Expr) : bool :=
  match e with Constant _ _ => true | _ => false end.

(** [ConstantExpr::alloc] and [ConstantExpr::create]: a constant node. *)
Definition ConstantExpr_alloc (v : Z) (w : Width) : Expr := Constant v w.
Definition ConstantExpr_create (v : Z) (w : Width) : Expr := ConstantExpr_alloc v w.

(** The operations of the expression library the ledger calls to build
    nodes and to query widths.  The library simplifies as it builds
    (constant folding and the like) and is not among the sources: the
    ledger is verified against any implementation of this interface. *)
Class ExprBuilder : Type := {
  getWidth : Expr → Width;
  ReadExpr_create : Array → Expr → Expr;  (* ReadExpr::create(UpdateList(root, 0), index) *)
  ZExtExpr_create : Expr → Width → Expr;
  AddExpr_create : Expr → Expr → Expr;
  MulExpr_create : Expr → Expr → Expr;
  UDivExpr_create : Expr → Expr → Expr
}.

(** The builder that allocates the node asked for, without simplifying; the
    width of a node is read off its structure (a read yields one byte). *)
Fixpoint structuralWidth (e : Expr) : Width :=
  match e with
  | Constant _ w => w
  | Read _ _ => Int8
  | Concat l r => (structuralWidth l + structuralWidth r)%N
  | SExt _ w | ZExt _ w | Extract _ _ w => w
  | Add l _ | Sub l _ | Mul l _ | UDiv l _ | SDiv l _ => structuralWidth l
  end.

Definition allocBuilder : ExprBuilder := {|
  getWidth := structuralWidth;
  ReadExpr_create := Read;
  ZExtExpr_create := ZExt;
  AddExpr_create := Add;
  MulExpr_create := Mul;
  UDivExpr_create := UDiv
|}.

(** ** The error ledger: [SymbolicError.cpp] *)

(** An [llvm::Value *] is the address of the value; it only serves as a map
    key and may be null. *)
Definition ValuePtr := N.
Definition nullValue : ValuePtr := 0%N.

Inductive Opcode : Type :=
| OpAdd | OpSub | OpMul | OpUDiv | OpSDiv
| OpOther (code : N).

(** An [llvm::Instruction]: its own address as a value, its opcode and its
    operands. *)
Record Instruction : Type := mkInstruction {
  instAddr : ValuePtr;
  getOpcode : Opcode;
  operands : list ValuePtr
}.

(** [instr->getOperand(i)]; an index past the operands is an error. *)
Definition getOperand (instr : Instruction) (i : nat) : Fault + ValuePtr :=
  match operands instr !! i with
  | Some v => mret v
  | None => fail OutOfRange
  end.

(** [arguments[i]] on the argument vector. *)
Definition argument (arguments : list Expr) (i : nat) : Fault + Expr :=
  match arguments !! i with
  | Some e => mret e
  | None => fail OutOfRange
  end.

Module SymbolicError.

(** The members of the class.  [errorArrayCache] lists the arrays created
    through it, in order of creation. *)
Record State : Type := mkState {
  valueErrorMap : gmap ValuePtr (option Expr);
  arrayErrorArrayMap : gmap Array (option Array);
  storedError : gmap Z Expr;
  errorArrayCache : list Array
}.

Definition initial : State := mkState ∅ ∅ ∅ [].

Definition set_valueErrorMap (m : gmap ValuePtr (option Expr)) (s : State) : State :=
  mkState m (arrayErrorArrayMap s) (storedError s) (errorArrayCache s).

Definition set_arrayErrorArrayMap (m : gmap Array (option Array)) (s : State) : State :=
  mkState (valueErrorMap s) m (storedError s) (errorArrayCache s).

Definition set_storedError (m : gmap Z Expr) (s : State) : State :=
  mkState (valueErrorMap s) (arrayErrorArrayMap s) m (errorArrayCache s).

(** Modelled from the spec: [ArrayCache::CreateArray] is not among the
    sources.  It makes the array of the given name and size, owned by the
    cache. *)
Definition CreateArray (errorName : string) (sz : N) (s : State) : Array * State :=
  let a := mkArray errorName sz in
  (a, mkState (valueErrorMap s) (arrayErrorArrayMap s) (storedError s)
        (errorArrayCache s ++ [a])).

Section Ledger.
Context {builder : ExprBuilder}.

(** The body shared, word for word, by the [ConcatExpr] and the [ReadExpr]
    case of [getError]: the error array of [a], created on first use, read
    at index 0. *)
Definition readErrorArray (a : Array) (s : State) : Expr * State :=
  let '(errorArray, m) := subscript (arrayErrorArrayMap s) a in
  let s := set_arrayErrorArrayMap m s in
  match errorArray with
  | None =>
      (* The error expression is not found; use an unspecified value *)
      let errorName := "_unspecified_error_" +:+ name a in
      let '(newErrorArray, s) := CreateArray errorName Int8 s in
      let s := set_arrayErrorArrayMap (<[a := Some newErrorArray]> (arrayErrorArrayMap s)) s in
      (ReadExpr_create newErrorArray (ConstantExpr_alloc 0 Int8), s)
  | Some errorArray =>
      (ReadExpr_create errorArray (ConstantExpr_alloc 0 Int8), s)
  end.

(** The first statement of [getError]: the cached error of [value], if
    [value] is not null. *)
Definition cachedError (value : ValuePtr) (s : State) : option Expr * State :=
  if decide (value = nullValue) then (None, s)
  else
    let '(errorAmount, m) := subscript (valueErrorMap s) value in
    (errorAmount, set_valueErrorMap m s).

(** The last statement of [getError]. *)
Definition memoize (value : ValuePtr) (ret : Expr) (s : State) : State :=
  if decide (value = nullValue) then s
  else set_valueErrorMap (<[value := Some ret]> (valueErrorMap s)) s.

Fixpoint getError (valueExpr : Expr) (value : ValuePtr) (s : State)
    {struct valueExpr} : Fault + (Expr * State) :=
  let ret := ConstantExpr_create 0 Int8 in
  let '(errorAmount, s) := cachedError value s in
  match errorAmount with
  | Some errorAmount => mret (errorAmount, s)
  | None =>
      '(ret, s) ←
        match valueExpr with
        | Concat getLeft _ =>
            match getLeft with
            | Read concatArray _ => mret (readErrorArray concatArray s)
            | _ => fail NullDereference
            end
        | Read readArray _ => mret (readErrorArray readArray s)
        | SExt kid _ => getError kid nullValue s
        | Add kid0 kid1 =>
            '(lhsError, s) ← getError kid0 nullValue s;
            '(rhsError, s) ← getError kid1 nullValue s;
            mret (AddExpr_create lhsError rhsError, s)
        | Constant _ _ => mret (ret, s)
        | _ => fail (AssertionFailed "malformed expression")
        end;
      mret (ret, memoize value ret s)
  end.

(** [valueErrorMap[instr] = error]. *)
Definition recordError (instr : Instruction) (error : option Expr) (s : State) : State :=
  set_valueErrorMap (<[instAddr instr := error]> (valueErrorMap s)) s.

(** Width alignment of an operand's error: zero-extension to the operand's
    width when the two widths differ. *)
Definition extended (error arg : Expr) : Expr :=
  if decide (getWidth error ≠ getWidth arg)
  then ZExtExpr_create error (getWidth arg)
  else error.

(** The statements the [Add], [Sub], [Mul], [UDiv] and [SDiv] cases of
    [propagateError] open with, the same in all five: the errors of the two
    operands, aligned to the operands' widths.  Yields [extendedLeft],
    [arguments[0]], [extendedRight] and [arguments[1]]. *)
Definition operandErrors (instr : Instruction) (arguments : list Expr) (s : State)
    : Fault + (Expr * Expr * Expr * Expr * State) :=
  lOp ← getOperand instr 0;
  rOp ← getOperand instr 1;
  arg0 ← argument arguments 0;
  '(lError, s) ← getError arg0 lOp s;
  arg1 ← argument arguments 1;
  '(rError, s) ← getError arg1 rOp s;
  let extendedLeft := extended lError arg0 in
  let extendedRight := extended rError arg1 in
  mret (extendedLeft, arg0, extendedRight, arg1, s).

(** The loop of the default case: the error of the first operand that has
    an entry in [valueErrorMap], or [error] when none has. *)
Fixpoint firstTracked (instr : Instruction) (s : State) (indices : list nat)
    (error : option Expr) : Fault + option Expr :=
  match indices with
  | [] => mret error
  | i :: indices =>
      v ← getOperand instr i;
      match valueErrorMap s !! v with
      | Some found => mret found
      | None => firstTracked instr s indices error
      end
  end.

Definition propagateError (instr : Instruction) (result : Expr)
    (arguments : list Expr) (s : State) : Fault + (option Expr * State) :=
  match getOpcode instr with
  | OpAdd =>
      '(extendedLeft, arg0, extendedRight, arg1, s) ← operandErrors instr arguments s;
      let errorLeft := MulExpr_create extendedLeft arg0 in
      let errorRight := MulExpr_create extendedRight arg1 in
      let resultError := AddExpr_create errorLeft errorRight in
      let result :=
        match result with
        | Constant ce _ =>
            if decide (ce ≠ 0) then UDivExpr_create resultError result else result
        | _ => result
        end in
      mret (Some result, recordError instr (Some result) s)
  | OpSub =>
      '(extendedLeft, arg0, extendedRight, arg1, s) ← operandErrors instr arguments s;
      let errorLeft := MulExpr_create extendedLeft arg0 in
      let errorRight := MulExpr_create extendedRight arg1 in
      let resultError := AddExpr_create errorLeft errorRight in
      let s := recordError instr (Some (UDivExpr_create resultError result)) s in
      mret (Some (UDivExpr_create resultError result), s)
  | OpMul | OpUDiv | OpSDiv =>
      '(extendedLeft, arg0, extendedRight, arg1, s) ← operandErrors instr arguments s;
      let s := recordError instr (Some (AddExpr_create extendedLeft extendedRight)) s in
      mret (Some (AddExpr_create extendedLeft extendedRight), s)
  | OpOther _ =>
      (* By default, simply find error in one of the arguments *)
      let error := Some (ConstantExpr_create 0 Int8) in
      error ← firstTracked instr s (seq 0 (length arguments)) error;
      mret (error, recordError instr error s)
  end.

Definition executeStore (address : Expr) (error : option Expr) (s : State)
    : Fault + State :=
  match error with
  | None => mret s
  | Some error =>
      match address with
      | Constant cp _ => mret (set_storedError (<[cp := error]> (storedError s)) s)
      | _ => fail (AssertionFailed "non-constant address")
      end
  end.

Definition executeLoad (value : ValuePtr) (address : Expr) (s : State)
    : Fault + (Expr * State) :=
  let error := ConstantExpr_create 0 Int8 in
  error ←
    match address with
    | Constant cp _ =>
        match storedError s !! cp with
        | Some found => mret found
        | None => mret error
        end
    | _ => fail (AssertionFailed "non-constant address")
    end;
  mret (error, set_valueErrorMap (<[value := Some error]> (valueErrorMap s)) s).

End Ledger.
End SymbolicError.

(** ** IEEE-754 doubles *)

(** A C++ [double] is a [spec_float] of precision 53 and maximal exponent
    1024, with the operations of the standard library's specification of
    IEEE-754 arithmetic (rounding to nearest, ties to even). *)
Definition double := spec_float.

(** [(double)i] for an [int] (exact: an [int] has 32 bits). *)
Definition double_of_int (i : Z) : double := binary_normalize 53 1024 i 0 false.

(** [x / y] on doubles. *)
Definition double_div (x y : double) : double := SFdiv 53 1024 x y.

(** The 64-bit pattern of a double, as [memcpy] into a [uint64_t] reads it:
    sign bit, eleven bits of biased exponent, 52 bits of fraction.  The
    pattern of a NaN is the quiet NaN with a clear sign; no division of the
    solver reaches it. *)
Definition double_bits (x : double) : Z :=
  let sign (s : bool) := if s then 2 ^ 63 else 0 in
  match x with
  | S754_zero s => sign s
  | S754_infinity s => sign s + 2047 * 2 ^ 52
  | S754_nan => 2047 * 2 ^ 52 + 2 ^ 51
  | S754_finite s m e =>
      if Z.pos m <? 2 ^ 52 then sign s + Z.pos m
      else sign s + (e + 1075) * 2 ^ 52 + (Z.pos m - 2 ^ 52)
  end.

(** ** The solver backend *)

Inductive Z3_lbool : Type := Z3_L_FALSE | Z3_L_UNDEF | Z3_L_TRUE.

(** Solver terms: what the builder makes of expressions and arrays, and the
    values the solver reports.  A numeral is a rational in lowest terms, as
    the solver keeps it; [Z3_app] stands for the terms that are no numeral. *)
Inductive Z3_ast : Type :=
| construct (e : Expr)                      (* builder->construct(e) *)
| Z3_mk_not (a : Z3_ast)
| buildReal (name : string)                 (* builder->buildReal(name) *)
| getInitialRead (root : Array) (index : N) (* builder->getInitialRead(root, index) *)
| Z3_numeral (num : Z) (den : positive)
| Z3_app (symbol : string).

#[global] Instance Z3_ast_eq_dec : EqDecision Z3_ast.
Proof. solve_decision. Defined.

Definition INT_MIN : Z := - 2 ^ 31.
Definition INT_MAX : Z := 2 ^ 31 - 1.
Definition UINT_MAX : Z := 2 ^ 32 - 1.

Definition is_numeral (a : Z3_ast) : bool :=
  match a with Z3_numeral _ _ => true | _ => false end.

(** [Z3_get_numeral_int]: succeeds on an integer numeral that fits an
    [int]. *)
Definition Z3_get_numeral_int (a : Z3_ast) : option Z :=
  match a with
  | Z3_numeral num 1 =>
      if decide (INT_MIN ≤ num ≤ INT_MAX) then Some num else None
  | _ => None
  end.

Definition Z3_get_numerator (a : Z3_ast) : Z3_ast :=
  match a with Z3_numeral num _ => Z3_numeral num 1 | _ => a end.

Definition Z3_get_denominator (a : Z3_ast) : Z3_ast :=
  match a with Z3_numeral _ den => Z3_numeral (Z.pos den) 1 | _ => a end.

Definition Z3_model := Z3_ast → option Z3_ast.

(** [Z3_model_eval]: the value of a term in a model, when the evaluation
    succeeds. *)
Definition Z3_model_eval (theModel : Z3_model) (a : Z3_ast) : option Z3_ast :=
  theModel a.

Record Z3_params : Type := mkParams { timeoutParam : Z; priorityParam : string }.

(** The calls that build and run a solver or optimizer session, as the
    context receives them. *)
Inductive Z3_call : Type :=
| call_mk_simple_solver
| call_solver_set_params (p : Z3_params)
| call_solver_assert (a : Z3_ast)
| call_solver_check
| call_mk_optimize
| call_optimize_set_params (p : Z3_params)
| call_optimize_assert (a : Z3_ast)
| call_optimize_maximize (a : Z3_ast)
| call_optimize_check.

#[global] Instance Z3_params_eq_dec : EqDecision Z3_params.
Proof. solve_decision. Defined.

#[global] Instance Z3_call_eq_dec : EqDecision Z3_call.
Proof. solve_decision. Defined.

(** The answers of the backend.  An answer is a function of the calls the
    context has received so far, the last session being the one asked. *)
Class Z3Backend : Type := {
  Z3_check : list Z3_call → Z3_lbool;     (* Z3_solver_check, Z3_optimize_check *)
  Z3_solver_get_model : list Z3_call → option Z3_model;
  Z3_solver_get_reason_unknown : list Z3_call → string;
  Z3_optimize_get_upper_as_vector : list Z3_call → nat → list Z3_ast;
  Z3_optimize_get_reason_unknown : list Z3_call → string
}.

(** [Z3_ast_vector_get]. *)
Definition Z3_ast_vector_get (v : list Z3_ast) (i : nat) : Fault + Z3_ast :=
  match v !! i with
  | Some a => mret a
  | None => fail OutOfRange
  end.

(** ** The solver: [Z3ErrorSolver.cpp] *)

Inductive SolverRunStatus : Type :=
| SOLVER_RUN_STATUS_SUCCESS_SOLVABLE
| SOLVER_RUN_STATUS_SUCCESS_UNSOLVABLE
| SOLVER_RUN_STATUS_FAILURE
| SOLVER_RUN_STATUS_TIMEOUT.

#[global] Instance SolverRunStatus_eq_dec : EqDecision SolverRunStatus.
Proof. solve_decision. Defined.

(** A query: the constraints, in insertion order, and the goal. *)
Record Query : Type := mkQuery { constraints : list Expr; expr : Expr }.

(** The statistics counters the solver increments. *)
Record Stats : Type := mkStats {
  queries : N;
  queryCounterexamples : N;
  queriesValid : N;
  queriesInvalid : N
}.

Module Z3ErrorSolverImpl.

(** The members of the class, the calls received by the context of the
    builder ([builder->ctx]) and the counters. *)
Record State : Type := mkState {
  runStatusCode : SolverRunStatus;
  solverParameters : Z3_params;
  ctx : list Z3_call;
  stats : Stats
}.

(** The state the constructor leaves: no timeout, priority [pareto]. *)
Definition initial : State :=
  mkState SOLVER_RUN_STATUS_FAILURE (mkParams UINT_MAX "pareto") []
    (mkStats 0 0 0 0).

Definition call (c : Z3_call) (st : State) : State :=
  mkState (runStatusCode st) (solverParameters st) (ctx st ++ [c]) (stats st).

Definition set_runStatusCode (r : SolverRunStatus) (st : State) : State :=
  mkState r (solverParameters st) (ctx st) (stats st).

Definition set_stats (f : Stats → Stats) (st : State) : State :=
  mkState (runStatusCode st) (solverParameters st) (ctx st) (f (stats st)).

Definition inc_queries (c : Stats) : Stats :=
  mkStats (queries c + 1) (queryCounterexamples c) (queriesValid c) (queriesInvalid c).
Definition inc_queryCounterexamples (c : Stats) : Stats :=
  mkStats (queries c) (queryCounterexamples c + 1) (queriesValid c) (queriesInvalid c).
Definition inc_queriesValid (c : Stats) : Stats :=
  mkStats (queries c) (queryCounterexamples c) (queriesValid c + 1) (queriesInvalid c).
Definition inc_queriesInvalid (c : Stats) : Stats :=
  mkStats (queries c) (queryCounterexamples c) (queriesValid c) (queriesInvalid c + 1).

(** [for (int i = 0; i < 8; ++i) { data.push_back(v & 255); v = v >> 8; }] *)
Fixpoint pushBytes (n : nat) (v : Z) (data : list Z) : list Z :=
  match n with
  | O => data
  | S n => pushBytes n (Z.shiftr v 8) (data ++ [Z.land v 255])
  end.

(** The numeral decoding of [handleSolverResponse]: the eight bytes for one
    evaluated term. *)
Definition decodeData (arrayElementExpr : Z3_ast) : Fault + list Z :=
  let data := [] in
  match Z3_get_numeral_int arrayElementExpr with
  | Some arrayElementValue => mret (pushBytes 8 arrayElementValue data)
  | None =>
      match Z3_get_numeral_int (Z3_get_numerator arrayElementExpr),
            Z3_get_numeral_int (Z3_get_denominator arrayElementExpr) with
      | Some numerator, Some denominator =>
          let result := double_div (double_of_int numerator) (double_of_int denominator) in
          let intResult := double_bits result in
          mret (pushBytes 8 intResult data)
      | _, _ => fail (AssertionFailed "failed to get value back")
      end
  end.

(** The loop of [handleSolverResponse] over the requested arrays. *)
Fixpoint readValues (theModel : Z3_model) (objects : list Array)
    (values : list (list Z)) : Fault + list (list Z) :=
  match objects with
  | [] => mret values
  | array :: objects =>
      let offset := 0%N in
      let initial_read := getInitialRead array offset in
      match Z3_model_eval theModel initial_read with
      | None => fail (AssertionFailed "Failed to evaluate model")
      | Some arrayElementExpr =>
          if is_numeral arrayElementExpr then
            data ← decodeData arrayElementExpr;
            readValues theModel objects (values ++ [data])
          else fail (AssertionFailed "Evaluated expression has wrong sort")
      end
  end.

(** The numeral decoding of [handleOptimizeResponse]. *)
Definition decodeUpperBound (upperBound : Z3_ast) : Fault + double :=
  match Z3_get_numeral_int upperBound with
  | Some upperBoundValue => mret (double_of_int upperBoundValue)
  | None =>
      match Z3_get_numeral_int (Z3_get_numerator upperBound),
            Z3_get_numeral_int (Z3_get_denominator upperBound) with
      | Some numerator, Some denominator =>
          mret (double_div (double_of_int numerator) (double_of_int denominator))
      | _, _ => fail (AssertionFailed "failed to get value back")
      end
  end.

Section Solver.
Context {backend : Z3Backend}.

(** The UNDEF case of both response handlers, on the reason the backend
    gives. *)
Definition unknownStatus (reason : string) : Fault + SolverRunStatus :=
  if decide (reason = "timeout" ∨ reason = "canceled")
  then mret SOLVER_RUN_STATUS_TIMEOUT
  else if decide (reason = "unknown")
  then mret SOLVER_RUN_STATUS_FAILURE
  else fail (Aborted reason).

(** [handleSolverResponse].  [theSolver] is the session as the context knows
    it: the calls received so far.  [objects] and [values] are pointers that
    may be null; the result carries the status returned and the output
    parameters [values] and [hasSolution]. *)
Definition handleSolverResponse (theSolver : list Z3_call) (satisfiable : Z3_lbool)
    (objects : option (list Array)) (values : option (list (list Z)))
    (hasSolution : bool)
    : Fault + (SolverRunStatus * option (list (list Z)) * bool) :=
  match satisfiable with
  | Z3_L_TRUE =>
      let hasSolution := true in
      match objects with
      | None =>
          (* No assignment is needed *)
          match values with
          | None => mret (SOLVER_RUN_STATUS_SUCCESS_SOLVABLE, values, hasSolution)
          | Some _ => fail (AssertionFailed "values == NULL")
          end
      | Some objects =>
          match values with
          | None => fail (AssertionFailed "values cannot be nullptr")
          | Some values =>
              match Z3_solver_get_model theSolver with
              | None => fail (AssertionFailed "Failed to retrieve model")
              | Some theModel =>
                  values ← readValues theModel objects values;
                  mret (SOLVER_RUN_STATUS_SUCCESS_SOLVABLE, Some values, hasSolution)
              end
          end
      end
  | Z3_L_FALSE =>
      let hasSolution := false in
      mret (SOLVER_RUN_STATUS_SUCCESS_UNSOLVABLE, values, hasSolution)
  | Z3_L_UNDEF =>
      let reason := Z3_solver_get_reason_unknown theSolver in
      status ← unknownStatus reason;
      mret (status, values, hasSolution)
  end.

(** The loop of [handleOptimizeResponse] over the indices of the
    objectives. *)
Fixpoint readUpperBounds (theSolver : list Z3_call) (indices : list nat)
    (values : list double) : Fault + list double :=
  match indices with
  | [] => mret values
  | idx :: indices =>
      let upperBoundVector := Z3_optimize_get_upper_as_vector theSolver idx in
      infinityCoefficient ← Z3_ast_vector_get upperBoundVector 0;
      upperBound ← Z3_ast_vector_get upperBoundVector 1;
      epsilonCoefficient ← Z3_ast_vector_get upperBoundVector 2;
      result ← decodeUpperBound upperBound;
      readUpperBounds theSolver indices (values ++ [result])
  end.

(** The output parameters of the optimizing entry points. *)
Record Optimum : Type := mkOptimum {
  infinity : option (list bool);
  values : option (list double);
  epsilon : option (list bool);
  hasSolution : bool
}.

(** [handleOptimizeResponse]. *)
Definition handleOptimizeResponse (theSolver : list Z3_call) (satisfiable : Z3_lbool)
    (objects : option (list Array)) (out : Optimum)
    : Fault + (SolverRunStatus * Optimum) :=
  match satisfiable with
  | Z3_L_TRUE =>
      let out := mkOptimum (infinity out) (values out) (epsilon out) true in
      match objects with
      | None =>
          (* No assignment is needed *)
          match values out with
          | None => mret (SOLVER_RUN_STATUS_SUCCESS_SOLVABLE, out)
          | Some _ => fail (AssertionFailed "values == NULL")
          end
      | Some objects =>
          match values out with
          | None => fail (AssertionFailed "values cannot be nullptr")
          | Some vals =>
              vals ← readUpperBounds theSolver (seq 0 (length objects)) vals;
              mret (SOLVER_RUN_STATUS_SUCCESS_SOLVABLE,
                    mkOptimum (infinity out) (Some vals) (epsilon out) (hasSolution out))
          end
      end
  | Z3_L_FALSE =>
      mret (SOLVER_RUN_STATUS_SUCCESS_UNSOLVABLE,
            mkOptimum (infinity out) (values out) (epsilon out) false)
  | Z3_L_UNDEF =>
      let reason := Z3_optimize_get_reason_unknown theSolver in
      status ← unknownStatus reason;
      mret (status, out)
  end.

(** The statements [internalRunSolver] and [internalRunOptimize] end with,
    the same in both: the counters of the terminal states and the value
    returned. *)
Definition conclude (hasSolution : bool) (st : State) : bool * State :=
  if decide (runStatusCode st = SOLVER_RUN_STATUS_SUCCESS_SOLVABLE
             ∨ runStatusCode st = SOLVER_RUN_STATUS_SUCCESS_UNSOLVABLE)
  then
    (true (* success *),
     set_stats (if hasSolution then inc_queriesInvalid else inc_queriesValid) st)
  else (false (* failed *), st).

Definition internalRunSolver (query : Query) (objects : option (list Array))
    (values : option (list (list Z))) (hasSolution : bool) (st : State)
    : Fault + (bool * option (list (list Z)) * bool * State) :=
  let st := call call_mk_simple_solver st in
  let st := call (call_solver_set_params (solverParameters st)) st in
  let st := set_runStatusCode SOLVER_RUN_STATUS_FAILURE st in
  let st :=
    foldl (λ st it, call (call_solver_assert (construct it)) st) st (constraints query) in
  let st := set_stats inc_queries st in
  let st := if objects is Some _ then set_stats inc_queryCounterexamples st else st in
  let z3QueryExpr := construct (expr query) in
  (* KLEE Queries are validity queries i.e.
     ∀ X Constraints(X) → query(X)
     but Z3 works in terms of satisfiability so instead we ask the
     negation of the equivalent i.e.
     ∃ X Constraints(X) ∧ ¬ query(X) *)
  let st := call (call_solver_assert (Z3_mk_not z3QueryExpr)) st in
  let st := call call_solver_check st in
  let satisfiable := Z3_check (ctx st) in
  '(status, values, hasSolution) ←
    handleSolverResponse (ctx st) satisfiable objects values hasSolution;
  let st := set_runStatusCode status st in
  let '(success, st) := conclude hasSolution st in
  mret (success, values, hasSolution, st).

Definition internalRunOptimize (query : Query) (objects : option (list Array))
    (out : Optimum) (st : State) : Fault + (bool * Optimum * State) :=
  let st := call call_mk_optimize st in
  let st := call (call_optimize_set_params (solverParameters st)) st in
  let st := set_runStatusCode SOLVER_RUN_STATUS_FAILURE st in
  let st :=
    foldl (λ st it, call (call_optimize_assert (construct it)) st) st (constraints query) in
  let st := set_stats inc_queries st in
  let st := if objects is Some _ then set_stats inc_queryCounterexamples st else st in
  (* Objective functions here *)
  match objects with
  | None => fail NullDereference
  | Some arrays =>
      let st :=
        foldl (λ st array,
                 let initial_read := buildReal (name array) in
                 call (call_optimize_maximize initial_read) st) st arrays in
      let st := call call_optimize_check st in
      let satisfiable := Z3_check (ctx st) in
      '(status, out) ← handleOptimizeResponse (ctx st) satisfiable objects out;
      let st := set_runStatusCode status st in
      let '(success, st) := conclude (hasSolution out) st in
      mret (success, out, st)
  end.

(** [computeTruth]; [hasSolution] is the value the uninitialised local
    happens to hold. *)
Definition computeTruth (query : Query) (hasSolution : bool) (st : State)
    : Fault + (bool * bool * State) :=
  '(status, _, hasSolution, st) ← internalRunSolver query None None hasSolution st;
  let isValid := negb hasSolution in
  mret (status, isValid, st).

Definition computeInitialValues (query : Query) (objects : list Array)
    (values : list (list Z)) (hasSolution : bool) (st : State)
    : Fault + (bool * option (list (list Z)) * bool * State) :=
  internalRunSolver query (Some objects) (Some values) hasSolution st.

Definition computeOptimalValues (query : Query) (objects : list Array)
    (infinity : list bool) (values : list double) (epsilon : list bool)
    (hasSolution : bool) (st : State) : Fault + (bool * Optimum * State) :=
  internalRunOptimize query (Some objects)
    (mkOptimum (Some infinity) (Some values) (Some epsilon) hasSolution) st.

End Solver.
End Z3ErrorSolverImpl.

(** ** Vocabulary of the properties *)

(** [value] is unresolved in [s]: [getError] finds no cached error for it
    (the pointer is null, or the map has no entry or a null entry for it). *)
Definition unresolved (value : ValuePtr) (s : SymbolicError.State) : Prop :=
  value = nullValue
  ∨ SymbolicError.valueErrorMap s !! value = None
  ∨ SymbolicError.valueErrorMap s !! value = Some None.

(** [valueExpr] is a read of the array [A], or a concatenation whose left
    part is one. *)
Definition readsArray (A : Array) (valueExpr : Expr) : Prop :=
  (∃ index, valueExpr = Read A index)
  ∨ (∃ index lo, valueExpr = Concat (Read A index) lo).

(** [A] has no error array yet. *)
Definition unassociated (A : Array) (s : SymbolicError.State) : Prop :=
  SymbolicError.arrayErrorArrayMap s !! A = None
  ∨ SymbolicError.arrayErrorArrayMap s !! A = Some None.

(** The error array the ledger makes for an array without one. *)
Definition unspecifiedErrorArray (A : Array) : Array :=
  mkArray ("_unspecified_error_" +:+ name A) 8.

(** The unnormalised weighted sum of the specification:
    [lhsError·lhsOperand + rhsError·rhsOperand]. *)
Definition weightedSum {builder : ExprBuilder}
    (lhsError lhsOperand rhsError rhsOperand : Expr) : Expr :=
  AddExpr_create (MulExpr_create lhsError lhsOperand)
                 (MulExpr_create rhsError rhsOperand).

(** [result] is statically known to be a nonzero constant. *)
Definition nonzeroConstant (result : Expr) : bool :=
  match result with
  | Constant ce _ => bool_decide (ce ≠ 0)
  | _ => false
  end.

(** The errors of the two operands of a binary instruction, as
    [propagateError] derives them: [lError] for operand 0 from [s], then
    [rError] for operand 1, the ledger ending in [s2]. *)
Definition operandsDerive {builder : ExprBuilder} (instr : Instruction)
    (arguments : list Expr) (s : SymbolicError.State)
    (arg0 lError arg1 rError : Expr) (s2 : SymbolicError.State) : Prop :=
  ∃ lOp rOp s1,
    operands instr !! 0%nat = Some lOp
    ∧ operands instr !! 1%nat = Some rOp
    ∧ arguments !! 0%nat = Some arg0
    ∧ arguments !! 1%nat = Some arg1
    ∧ SymbolicError.getError arg0 lOp s = inr (lError, s1)
    ∧ SymbolicError.getError arg1 rOp s1 = inr (rError, s2).

(** [b] with [f] in the place of [UDivExpr::create]. *)
Definition withUDiv (f : Expr → Expr → Expr) (b : ExprBuilder) : ExprBuilder := {|
  getWidth := @getWidth b;
  ReadExpr_create := @ReadExpr_create b;
  ZExtExpr_create := @ZExtExpr_create b;
  AddExpr_create := @AddExpr_create b;
  MulExpr_create := @MulExpr_create b;
  UDivExpr_create := f
|}.

(** The little-endian encoding of [v] on [n] bytes, least significant
    byte first: byte [i] is the digit of weight [256 ^ i]. *)
Definition littleEndianBytes (n : nat) (v : Z) : list Z :=
  map (λ i : nat, (v / 256 ^ Z.of_nat i) mod 256) (seq 0 n).

(** The reference encoding of a double on eight bytes. *)
Definition doubleBytes (x : double) : list Z := littleEndianBytes 8 (double_bits x).

(** A numeral both decoders accept: numerator and denominator fit an
    [int]. *)
Definition decodable (a : Z3_ast) : Prop :=
  ∃ num den,
    a = Z3_numeral num den ∧ INT_MIN ≤ num ≤ INT_MAX ∧ Z.pos den ≤ INT_MAX.

(** The model gives every requested array a decodable numeral. *)
Definition modelDecodes (theModel : Z3_model) (objects : list Array) : Prop :=
  Forall (λ array,
            ∃ v, Z3_model_eval theModel (getInitialRead array 0) = Some v
                 ∧ decodable v) objects.

(** The backend reports, for each of the first [n] objectives, an upper
    bound of three entries whose middle one is a decodable numeral. *)
Definition upperBoundsDecode {backend : Z3Backend} (theSolver : list Z3_call)
    (n : nat) : Prop :=
  ∀ idx, (idx < n)%nat →
    ∃ inf ub eps rest,
      Z3_optimize_get_upper_as_vector theSolver idx = inf :: ub :: eps :: rest
      ∧ decodable ub.

(** The calls [internalRunOptimize] makes on a fresh optimizer session up
    to the check. *)
Definition optimizeSession (p : Z3_params) (query : Query) (objects : list Array)
    : list Z3_call :=
  [call_mk_optimize; call_optimize_set_params p]
  ++ map (λ c, call_optimize_assert (construct c)) (constraints query)
  ++ map (λ array, call_optimize_maximize (buildReal (name array))) objects
  ++ [call_optimize_check].

(** The calls [internalRunSolver] makes on a fresh solver session up to the
    check. *)
Definition solverSession (p : Z3_params) (query : Query) : list Z3_call :=
  [call_mk_simple_solver; call_solver_set_params p]
  ++ map (λ c, call_solver_assert (construct c)) (constraints query)
  ++ [call_solver_assert (Z3_mk_not (construct (expr query))); call_solver_check].

(** A backend that gives the same answers whatever it is asked: the check
    result [answer], the reason [reason], a model that values every term as
    [v], and the upper bound [upper] for every objective. *)
Definition constBackend (answer : Z3_lbool) (reason : string) (v : Z3_ast)
    (upper : list Z3_ast) : Z3Backend := {|
  Z3_check := λ _, answer;
  Z3_solver_get_model := λ _, Some (λ _, Some v);
  Z3_solver_get_reason_unknown := λ _, reason;
  Z3_optimize_get_upper_as_vector := λ _ _, upper;
  Z3_optimize_get_reason_unknown := λ _, reason
|}.

(** Sample inputs: two 32-bit values read from the symbolic arrays [x] and
    [y], and binary instructions at address 3 on the values at addresses 1
    and 2. *)
Module Sample.

Definition x : Array := mkArray "x" 4.
Definition y : Array := mkArray "y" 4.

Definition word (A : Array) : Expr :=
  Concat (Read A (Constant 3 32))
    (Concat (Read A (Constant 2 32))
       (Concat (Read A (Constant 1 32)) (Read A (Constant 0 32)))).

Definition errorByte (A : Array) : Expr :=
  Read (unspecifiedErrorArray A) (Constant 0 8).

Definition binary (op : Opcode) : Instruction := mkInstruction 3%N op [1%N; 2%N].

(** A query with two one-bit constraints and a one-bit goal, and the error
    arrays of [x] and [y] as the arrays to optimise. *)
Definition constraint0 : Expr := Extract (word x) 0 1.
Definition constraint1 : Expr := Extract (word y) 0 1.
Definition goal : Expr := Extract (word x) 31 1.
Definition query : Query := mkQuery [constraint0; constraint1] goal.
Definition objectives : list Array :=
  [unspecifiedErrorArray x; unspecifiedErrorArray y].

(** A backend that finds every check satisfiable and reports, for every
    objective, the upper bound with infinity coefficient 1, value 5 and
    epsilon coefficient 1. *)
Definition satisfiable : Z3Backend :=
  constBackend Z3_L_TRUE "" (Z3_numeral 0 1)
    [Z3_numeral 1 1; Z3_numeral 5 1; Z3_numeral 1 1].

End Sample.

(** ** The report of the ledger: [outputErrorBound] *)

(** What the ledger asks of its host besides expressions: whether a value
    is an instruction ([llvm::dyn_cast<llvm::Instruction>]), the address of
    an expression object ([e.get()]), and the text [Expr::print] and the
    stream print of a [double]. *)
Class Host : Type := {
  isInstruction : ValuePtr → bool;
  exprAddress : Expr → N;
  printExpr : Expr → string;
  printDouble : double → string
}.

(** The debug location of an instruction ([llvm::DILocation]). *)
Record DILocation : Type := mkDILocation {
  getLineNumber : N;
  getFilename : string;
  getDirectory : string
}.

(** An instruction as [outputErrorBound] reads it: the instruction, its
    ["dbg"] metadata if any, and the name of the function of its parent
    block if it has both. *)
Record Site : Type := mkSite {
  siteInstruction : Instruction;
  dbg : option DILocation;
  functionName : option string
}.

Definition newline : string := String (Ascii.ascii_of_nat 10) EmptyString.

Module Report.

(** The ledger together with the member [outputString]. *)
Record State : Type := mkState {
  ledger : SymbolicError.State;
  outputString : string
}.

Definition initial : State := mkState SymbolicError.initial "".

Section Report.
Context {host : Host}.

(** The name of the error variable of an expression. *)
Definition errorVarOf (e : Expr) : string := "__error__" +:+ pretty (exprAddress e).

Definition outputErrorBound (inst : Site) (bound : double) (st : State)
    : Fault + State :=
  operand0 ← getOperand (siteInstruction inst) 0;
  let key := if isInstruction operand0 then operand0 else nullValue in
  let '(e, m) := subscript (SymbolicError.valueErrorMap (ledger st)) key in
  let s := SymbolicError.set_valueErrorMap m (ledger st) in
  let e := match e with
           | Some e => e
           | None => ConstantExpr_create 0 Int8
           end in
  let errorVar := errorVarOf e in
  let stream := outputString st in
  let stream :=
    if decide (stream = "") then stream
    else stream +:+ newline +:+ "------------------------" +:+ newline in
  let stream :=
    match dbg inst with
    | Some loc =>
        let stream :=
          stream +:+ "Line " +:+ pretty (getLineNumber loc) +:+ " of "
                 +:+ getDirectory loc +:+ "/" +:+ getFilename loc in
        let stream :=
          match functionName inst with
          | Some func => stream +:+ " (" +:+ func +:+ ")"
          | None => stream
          end in
        stream +:+ ": "
    | None =>
        match functionName inst with
        | Some func => stream +:+ func +:+ ": "
        | None => stream
        end
    end in
  let stream := stream +:+ errorVar +:+ " == (" +:+ printExpr e +:+ ") && " in
  let stream := stream +:+ "(" +:+ errorVar +:+ " <= " +:+ printDouble bound +:+ ") && " in
  let stream :=
    stream +:+ "(" +:+ errorVar +:+ " >= -" +:+ printDouble bound +:+ ")" +:+ newline in
  mret (mkState s stream).

End Report.
End Report.

(** ** Sequences of calls on the ledger *)

(** A call of one of the operations of the ledger, as the execution engine
    makes them while it runs instructions. *)
Inductive LedgerCall : Type :=
| CallGetError (valueExpr : Expr) (value : ValuePtr)
| CallPropagateError (instr : Instruction) (result : Expr) (arguments : list Expr)
| CallExecuteStore (address : Expr) (error : option Expr)
| CallExecuteLoad (value : ValuePtr) (address : Expr)
| CallOutputErrorBound (inst : Site) (bound : double).

Definition onLedger (r : Fault + SymbolicError.State) (st : Report.State)
    : Fault + Report.State :=
  s ← r; mret (Report.mkState s (Report.outputString st)).

Definition dropResult {A : Type} (r : Fault + (A * SymbolicError.State))
    : Fault + SymbolicError.State :=
  '(_, s) ← r; mret s.

(** One call, the value returned dropped. *)
Definition perform {builder : ExprBuilder} {host : Host} (c : LedgerCall)
    (st : Report.State) : Fault + Report.State :=
  match c with
  | CallGetError valueExpr value =>
      onLedger (dropResult (SymbolicError.getError valueExpr value (Report.ledger st))) st
  | CallPropagateError instr result arguments =>
      onLedger
        (dropResult (SymbolicError.propagateError instr result arguments (Report.ledger st)))
        st
  | CallExecuteStore address error =>
      onLedger (SymbolicError.executeStore address error (Report.ledger st)) st
  | CallExecuteLoad value address =>
      onLedger (dropResult (SymbolicError.executeLoad value address (Report.ledger st))) st
  | CallOutputErrorBound inst bound => Report.outputErrorBound inst bound st
  end.

(** The calls of a list, in order, stopping at the first fault. *)
Fixpoint performAll {builder : ExprBuilder} {host : Host} (cs : list LedgerCall)
    (st : Report.State) : Fault + Report.State :=
  match cs with
  | [] => mret st
  | c :: cs => st ← perform c st; performAll cs st
  end.

(** ** Vocabulary of the further properties *)

(** The shapes [getError] derives an error for: constants, reads,
    concatenations led by a read, sign extensions and sums of such. *)
Fixpoint wellShaped (e : Expr) : bool :=
  match e with
  | Constant _ _ => true
  | Read _ _ => true
  | Concat (Read _ _) _ => true
  | SExt kid _ => wellShaped kid
  | Add kid0 kid1 => wellShaped kid0 && wellShaped kid1
  | _ => false
  end.

(** The dispatch of [getError] on the shape of the expression, taken by an
    unresolved value: the part between the lookup of the cached error and
    the memoisation. *)
Definition deriveError {builder : ExprBuilder} (valueExpr : Expr)
    (s : SymbolicError.State) : Fault + (Expr * SymbolicError.State) :=
  match valueExpr with
  | Concat getLeft _ =>
      match getLeft with
      | Read concatArray _ => mret (SymbolicError.readErrorArray concatArray s)
      | _ => fail NullDereference
      end
  | Read readArray _ => mret (SymbolicError.readErrorArray readArray s)
  | SExt kid _ => SymbolicError.getError kid nullValue s
  | Add kid0 kid1 =>
      '(lhsError, s) ← SymbolicError.getError kid0 nullValue s;
      '(rhsError, s) ← SymbolicError.getError kid1 nullValue s;
      mret (AddExpr_create lhsError rhsError, s)
  | Constant _ _ => mret (ConstantExpr_create 0 Int8, s)
  | _ => fail (AssertionFailed "malformed expression")
  end.

(** The error arrays of a ledger are consistent: every array with an entry
    has the error array named after it, that array is in the cache, every
    array of the cache is the error array of some array, and the cache
    holds as many arrays as the map has entries. *)
Definition errorArraysConsistent (s : SymbolicError.State) : Prop :=
  (∀ A E, SymbolicError.arrayErrorArrayMap s !! A = Some E →
          E = Some (unspecifiedErrorArray A))
  ∧ (∀ E, E ∈ SymbolicError.errorArrayCache s ↔
          ∃ A, SymbolicError.arrayErrorArrayMap s !! A = Some (Some E))
  ∧ length (SymbolicError.errorArrayCache s)
    = base.size (SymbolicError.arrayErrorArrayMap s).

(** The error a load at the concrete address [a] returns in [s]. *)
Definition storedAt (a : Z) (s : SymbolicError.State) : Expr :=
  default (Constant 0 8) (SymbolicError.storedError s !! a).

(** The unsigned integer a list of bytes denotes, least significant byte
    first. *)
Definition fromLittleEndian (bytes : list Z) : Z :=
  foldr (λ b acc, b + 256 * acc) 0 bytes.

(** [getOperationStatusCode]. *)
Definition getOperationStatusCode (st : Z3ErrorSolverImpl.State) : SolverRunStatus :=
  Z3ErrorSolverImpl.runStatusCode st.

(** ** The timeout of the solver: [setCoreSolverTimeout] *)

Definition double_mul (x y : double) : double := SFmul 53 1024 x y.
Definition double_add (x y : double) : double := SFadd 53 1024 x y.

(** [x >= y] on doubles; false when either is a NaN. *)
Definition double_ge (x y : double) : bool := SFleb y x.

(** The double [0.5]. *)
Definition double_half : double := binary_normalize 53 1024 1 (-1) false.

(** [(unsigned int)x]: the value truncated toward zero, when it fits an
    [unsigned int]; the conversion is undefined otherwise. *)
Definition double_to_unsigned (x : double) : option Z :=
  match x with
  | S754_zero _ => Some 0
  | S754_finite sign m e =>
      let magnitude := if 0 <=? e then Z.pos m * 2 ^ e else Z.pos m / 2 ^ (- e) in
      let truncated := if sign then - magnitude else magnitude in
      if decide (0 ≤ truncated ≤ UINT_MAX) then Some truncated else None
  | S754_infinity _ | S754_nan => None
  end.

Module Z3ErrorSolver.

(** [Z3ErrorSolverImpl::setCoreSolverTimeout], to which
    [Z3ErrorSolver::setCoreSolverTimeout] forwards.  The member [timeout] it
    also assigns is read nowhere else and has no field in the state; a
    conversion that is undefined ends the run with [OutOfRange]. *)
Definition setCoreSolverTimeout (_timeout : double) (st : Z3ErrorSolverImpl.State)
    : Fault + Z3ErrorSolverImpl.State :=
  if double_ge _timeout (S754_zero false) then
    let timeout := _timeout in
    match double_to_unsigned
            (double_add (double_mul timeout (double_of_int 1000)) double_half) with
    | None => fail OutOfRange
    | Some timeoutInMilliSeconds =>
        let timeoutInMilliSeconds :=
          if decide (timeoutInMilliSeconds = 0) then UINT_MAX
          else timeoutInMilliSeconds in
        mret (Z3ErrorSolverImpl.mkState
                (Z3ErrorSolverImpl.runStatusCode st)
                (mkParams timeoutInMilliSeconds
                   (priorityParam (Z3ErrorSolverImpl.solverParameters st)))
                (Z3ErrorSolverImpl.ctx st)
                (Z3ErrorSolverImpl.stats st))
    end
  else fail (AssertionFailed "timeout must be >= 0").

End Z3ErrorSolver.

(** The whole numbers of seconds from 1 to [n]. *)
Definition wholeSeconds (n : nat) : list Z := map Z.of_nat (seq 1 n).

(** [setCoreSolverTimeout] on [seconds] whole seconds sets the timeout
    parameter to [1000 * seconds] milliseconds. *)
Definition setsMilliseconds (st : Z3ErrorSolverImpl.State) (seconds : Z) : bool :=
  match Z3ErrorSolver.setCoreSolverTimeout (double_of_int seconds) st with
  | inr st' =>
      bool_decide (timeoutParam (Z3ErrorSolverImpl.solverParameters st') = 1000 * seconds)
  | inl _ => false
  end.

(** Further sample inputs: a host for which every value is an instruction
    and every expression prints as ["e"], the site of a bound on the value
    at address 1, instructions of another opcode, a ledger in which the
    values at addresses 1 and 2 have the error bytes of [x] and [y], and a
    backend that finds every check unsatisfiable. *)
Module Sample2.

Definition host : Host := {|
  isInstruction := λ _, true;
  exprAddress := λ _, 4096%N;
  printExpr := λ _, "e";
  printDouble := λ _, "1"
|}.

Definition site : Site :=
  mkSite (mkInstruction 9%N (OpOther 49) [1%N]) None (Some "main").

Definition cast : Instruction := mkInstruction 4%N (OpOther 33) [1%N].

Definition select : Instruction := mkInstruction 5%N (OpOther 57) [7%N; 2%N].

Definition tracked : SymbolicError.State :=
  SymbolicError.mkState
    {[ 1%N := Some (Sample.errorByte Sample.x);
       2%N := Some (Sample.errorByte Sample.y) ]}
    ∅ {[ 4096 := Sample.errorByte Sample.x ]} [].

Definition calls : list LedgerCall :=
  [ CallGetError (Sample.word Sample.x) 1%N;
    CallGetError (Sample.word Sample.y) 2%N;
    CallPropagateError (Sample.binary OpMul)
      (Mul (Sample.word Sample.x) (Sample.word Sample.y))
      [Sample.word Sample.x; Sample.word Sample.y];
    CallExecuteStore (Constant 4096 64) (Some (Sample.errorByte Sample.x));
    CallOutputErrorBound site (double_of_int 1);
    CallExecuteLoad 6%N (Constant 4096 64);
    CallOutputErrorBound site (double_of_int 1);
    CallGetError (Read Sample.x (Constant 1 32)) 8%N ].

Definition unsatisfiable : Z3Backend :=
  constBackend Z3_L_FALSE "" (Z3_numeral 0 1) [].

Definition third : Z3Backend :=
  constBackend Z3_L_TRUE "" (Z3_numeral 1 3) [].

End Sample2.

(** * Properties of the error ledger *)

Section LedgerProperties.
Context {builder : ExprBuilder}.
Import SymbolicError.

Implicit Types (s : State) (value : ValuePtr) (address error : Expr).

(** ** The shadow store: [executeStore] and [executeLoad] *)

Lemma executeStore_constant cp w error s :
  executeStore (Constant cp w) (Some error) s
  = inr (set_storedError (<[cp := error]> (storedError s)) s).
Proof. reflexivity. Qed.

Lemma executeLoad_constant value cp w s :
  executeLoad value (Constant cp w) s
  = let error := default (ConstantExpr_create 0 Int8) (storedError s !! cp) in
    inr (error, set_valueErrorMap (<[value := Some error]> (valueErrorMap s)) s).
Proof. unfold executeLoad. by destruct (storedError s !! cp). Qed.

Lemma executeStore_symbolic address error s :
  isConstant address = false →
  executeStore address (Some error) s = inl (AssertionFailed "non-constant address").
Proof. by destruct address. Qed.

Lemma executeLoad_symbolic value address s :
  isConstant address = false →
  executeLoad value address s = inl (AssertionFailed "non-constant address").
Proof. by destruct address. Qed.

(** A store leaves the errors kept at the other addresses alone. *)
Lemma executeStore_other cp w error s s' a :
  executeStore (Constant cp w) (Some error) s = inr s' →
  a ≠ cp → storedError s' !! a = storedError s !! a.
Proof.
  rewrite executeStore_constant. intros [= <-] Hne. simpl.
  by rewrite lookup_insert_ne.
Qed.

(** C8: for a concrete address, a store of a non-null error followed by a
    load at the same address returns the stored expression unchanged,
    whatever the width the address constant is written with; a load at a
    concrete address that holds no stored error returns the zero constant of
    eight bits.  Both loads also memoise what they return for [value]. *)
Theorem store_then_load cp w w' error value s :
  (∃ s1 s2,
      executeStore (Constant cp w) (Some error) s = inr s1
      ∧ executeLoad value (Constant cp w') s1 = inr (error, s2)
      ∧ valueErrorMap s2 !! value = Some (Some error))
  ∧ (storedError s !! cp = None →
     ∃ s2,
       executeLoad value (Constant cp w') s = inr (Constant 0 8, s2)
       ∧ storedError s2 = storedError s).
Proof.
  split.
  - eexists _, _. split; [apply executeStore_constant|].
    rewrite executeLoad_constant. cbn [set_storedError storedError].
    rewrite lookup_insert_eq. cbn [default set_valueErrorMap valueErrorMap].
    split; [reflexivity|]. simpl. apply lookup_insert_eq.
  - intros Hnone. eexists. rewrite executeLoad_constant, Hnone. simpl.
    split; reflexivity.
Qed.

(** C6, as stated, fails: a store of a null error at a symbolic address
    returns normally and leaves the ledger as it was. *)
Lemma executeStore_null_error_symbolic_address :
  let address := Read (mkArray "p" 8) (Constant 0 32) in
  isConstant address = false
  ∧ executeStore address None initial = inr initial.
Proof. split; reflexivity. Qed.

(** C6, amended: at an address that is no constant, every load and every
    store of a non-null error stops at the assertion "non-constant
    address"; a store of a null error is a no-op at any address. *)
Theorem symbolic_address_is_fatal address :
  isConstant address = false →
  (∀ value s,
      executeLoad value address s = inl (AssertionFailed "non-constant address"))
  ∧ (∀ error s,
      executeStore address (Some error) s
      = inl (AssertionFailed "non-constant address"))
  ∧ (∀ s, executeStore address None s = inr s).
Proof.
  intros Hsym. split; [|split].
  - intros. by apply executeLoad_symbolic.
  - intros. by apply executeStore_symbolic.
  - reflexivity.
Qed.

(** ** Error arrays: [getError] on reads *)

Lemma set_arrayErrorArrayMap_id s :
  set_arrayErrorArrayMap (arrayErrorArrayMap s) s = s.
Proof. by destruct s. Qed.

Lemma set_valueErrorMap_id s : set_valueErrorMap (valueErrorMap s) s = s.
Proof. by destruct s. Qed.

Lemma readErrorArray_reuse A E s :
  arrayErrorArrayMap s !! A = Some (Some E) →
  readErrorArray A s = (ReadExpr_create E (Constant 0 8), s).
Proof.
  intros HA. unfold readErrorArray, subscript. rewrite HA.
  by rewrite set_arrayErrorArrayMap_id.
Qed.

Lemma readErrorArray_create A s :
  unassociated A s →
  ∃ s',
    readErrorArray A s
    = (ReadExpr_create (unspecifiedErrorArray A) (Constant 0 8), s')
    ∧ arrayErrorArrayMap s' = <[A := Some (unspecifiedErrorArray A)]> (arrayErrorArrayMap s)
    ∧ errorArrayCache s' = errorArrayCache s ++ [unspecifiedErrorArray A]
    ∧ valueErrorMap s' = valueErrorMap s
    ∧ storedError s' = storedError s.
Proof.
  intros [HA|HA]; unfold readErrorArray, subscript; rewrite HA; simpl;
    eexists; (split; [reflexivity|]); simpl.
  - split; [apply insert_insert_eq | done].
  - done.
Qed.

Lemma cachedError_unresolved value s :
  unresolved value s →
  ∃ s0,
    cachedError value s = (None, s0)
    ∧ arrayErrorArrayMap s0 = arrayErrorArrayMap s
    ∧ errorArrayCache s0 = errorArrayCache s
    ∧ storedError s0 = storedError s.
Proof.
  unfold cachedError, subscript. intros Hu.
  destruct (decide (value = nullValue)) as [->|Hnn]; [by eexists|].
  destruct Hu as [?|[Hv|Hv]]; [done| |]; rewrite Hv; by eexists.
Qed.

Lemma memoize_frame value ret s :
  arrayErrorArrayMap (memoize value ret s) = arrayErrorArrayMap s
  ∧ errorArrayCache (memoize value ret s) = errorArrayCache s
  ∧ storedError (memoize value ret s) = storedError s.
Proof. unfold memoize. by destruct (decide (value = nullValue)). Qed.

(** [getError] on a read of [A], for an unresolved value, is the read of
    the error array of [A], memoised. *)
Lemma getError_readsArray A valueExpr value s :
  readsArray A valueExpr → unresolved value s →
  ∃ s0,
    cachedError value s = (None, s0)
    ∧ getError valueExpr value s
      = inr ((readErrorArray A s0).1,
             memoize value (readErrorArray A s0).1 (readErrorArray A s0).2).
Proof.
  intros Hr Hu. destruct (cachedError_unresolved value s Hu) as (s0 & Hc & _).
  exists s0. split; [done|].
  destruct Hr as [[index ->]|(index & lo & ->)]; simpl; rewrite Hc; simpl;
    by destruct (readErrorArray A s0).
Qed.

Lemma cachedError_frame value s :
  arrayErrorArrayMap (cachedError value s).2 = arrayErrorArrayMap s
  ∧ errorArrayCache (cachedError value s).2 = errorArrayCache s
  ∧ storedError (cachedError value s).2 = storedError s.
Proof.
  unfold cachedError, subscript.
  destruct (decide (value = nullValue)); [done|].
  by destruct (valueErrorMap s !! value).
Qed.

Lemma readErrorArray_keeps_association a s A E :
  arrayErrorArrayMap s !! A = Some (Some E) →
  arrayErrorArrayMap (readErrorArray a s).2 !! A = Some (Some E).
Proof.
  intros HA. destruct (decide (a = A)) as [->|Hne].
  - by rewrite (readErrorArray_reuse A E s).
  - unfold readErrorArray, subscript.
    destruct (arrayErrorArrayMap s !! a) as [[E'|]|] eqn:Ha; simpl.
    + done.
    + by rewrite lookup_insert_ne.
    + by rewrite !lookup_insert_ne.
Qed.

(** An association, once made, survives every later [getError]. *)
Lemma getError_keeps_association valueExpr :
  ∀ value s ret s' A E,
    getError valueExpr value s = inr (ret, s') →
    arrayErrorArrayMap s !! A = Some (Some E) →
    arrayErrorArrayMap s' !! A = Some (Some E).
Proof.
  induction valueExpr as
    [v w|a index _|lhs IHl rhs _|kid IH w|kid _ w|k0 IH0 k1 IH1| | | | |];
    intros value s ret s' A E Hget HA; simpl in Hget;
    destruct (cachedError_frame value s) as (Hm & _);
    destruct (cachedError value s) as [[cached|] s0]; simpl in Hm;
    try (injection Hget as <- <-; by rewrite Hm);
    try discriminate Hget;
    rewrite <- Hm in HA.
  - injection Hget as <- <-. by rewrite (proj1 (memoize_frame _ _ _)).
  - pose proof (readErrorArray_keeps_association a s0 A E HA) as Hk.
    destruct (readErrorArray a s0) as [r s1]. injection Hget as <- <-.
    by rewrite (proj1 (memoize_frame _ _ _)).
  - destruct lhs; try discriminate Hget.
    pose proof (readErrorArray_keeps_association root s0 A E HA) as Hk.
    destruct (readErrorArray root s0) as [r s1]. injection Hget as <- <-.
    by rewrite (proj1 (memoize_frame _ _ _)).
  - destruct (getError kid nullValue s0) as [|[r s1]] eqn:Hkid; [discriminate|].
    injection Hget as <- <-. rewrite (proj1 (memoize_frame _ _ _)). eauto.
  - destruct (getError k0 nullValue s0) as [|[r0 s1]] eqn:H0; [discriminate|].
    simpl in Hget.
    destruct (getError k1 nullValue s1) as [|[r1 s2]] eqn:H1; [discriminate|].
    injection Hget as <- <-. rewrite (proj1 (memoize_frame _ _ _)). eauto.
Qed.

(** C10: [arrayErrorArrayMap] is a map, so an array has at most one error
    array.  The first unresolved reference to an array [A] without an error
    array (a read of [A], or a concatenation led by one) creates the array
    named ["_unspecified_error_" ++ name A], records it for [A] and returns
    the read of its byte 0.  An unresolved reference to an array that has an
    error array returns the read of that same array, creates nothing and
    leaves the map as it is.  An association, once made, is still there
    after any later [getError], so every subsequent reference finds it. *)
Theorem error_array_created_once A :
  (∀ valueExpr value s,
      readsArray A valueExpr → unresolved value s → unassociated A s →
      ∃ s',
        getError valueExpr value s
        = inr (ReadExpr_create (unspecifiedErrorArray A) (Constant 0 8), s')
        ∧ name (unspecifiedErrorArray A) = "_unspecified_error_" +:+ name A
        ∧ arrayErrorArrayMap s'
          = <[A := Some (unspecifiedErrorArray A)]> (arrayErrorArrayMap s)
        ∧ errorArrayCache s' = errorArrayCache s ++ [unspecifiedErrorArray A])
  ∧ (∀ valueExpr value s E,
      readsArray A valueExpr → unresolved value s →
      arrayErrorArrayMap s !! A = Some (Some E) →
      ∃ s',
        getError valueExpr value s = inr (ReadExpr_create E (Constant 0 8), s')
        ∧ arrayErrorArrayMap s' = arrayErrorArrayMap s
        ∧ errorArrayCache s' = errorArrayCache s)
  ∧ (∀ valueExpr value s ret s' E,
      getError valueExpr value s = inr (ret, s') →
      arrayErrorArrayMap s !! A = Some (Some E) →
      arrayErrorArrayMap s' !! A = Some (Some E)).
Proof.
  split; [|split].
  - intros valueExpr value s Hr Hu Hun.
    destruct (getError_readsArray A valueExpr value s Hr Hu) as (s0 & Hc & ->).
    destruct (cachedError_unresolved value s Hu) as (s0' & Hc' & Hm & Hcache & _).
    rewrite Hc in Hc'. injection Hc' as <-.
    destruct (readErrorArray_create A s0) as (s1 & -> & Hm1 & Hc1 & _).
    { unfold unassociated. by rewrite Hm. }
    eexists. split; [reflexivity|]. simpl.
    destruct (memoize_frame value
                (ReadExpr_create (unspecifiedErrorArray A) (Constant 0 8)) s1)
      as (-> & -> & _).
    by rewrite Hm1, Hc1, Hm, Hcache.
  - intros valueExpr value s E Hr Hu HE.
    destruct (getError_readsArray A valueExpr value s Hr Hu) as (s0 & Hc & ->).
    destruct (cachedError_unresolved value s Hu) as (s0' & Hc' & Hm & Hcache & _).
    rewrite Hc in Hc'. injection Hc' as <-.
    rewrite (readErrorArray_reuse A E s0) by by rewrite Hm.
    eexists. split; [reflexivity|]. simpl.
    destruct (memoize_frame value (ReadExpr_create E (Constant 0 8)) s0)
      as (-> & -> & _).
    by rewrite Hm, Hcache.
  - intros valueExpr value s ret s' E. apply getError_keeps_association.
Qed.

(** ** Propagation: [propagateError] *)

Lemma extended_narrower error arg :
  (getWidth error < getWidth arg)%N →
  extended error arg = ZExtExpr_create error (getWidth arg).
Proof. intros Hlt. unfold extended. case_decide; [done|lia]. Qed.

Lemma extended_same_width error arg :
  getWidth error = getWidth arg → extended error arg = error.
Proof. intros Heq. unfold extended. by case_decide. Qed.

Lemma operandErrors_derive instr arguments s arg0 lError arg1 rError s2 :
  operandsDerive instr arguments s arg0 lError arg1 rError s2 →
  operandErrors instr arguments s
  = inr (extended lError arg0, arg0, extended rError arg1, arg1, s2).
Proof.
  intros (lOp & rOp & s1 & Hl & Hr & H0 & H1 & Hgl & Hgr).
  unfold operandErrors, getOperand, argument.
  rewrite Hl, Hr, H0, H1. simpl. rewrite Hgl. simpl. by rewrite Hgr.
Qed.

Lemma recordError_lookup instr (e : option Expr) s :
  valueErrorMap (recordError instr e s) !! instAddr instr = Some e.
Proof. apply lookup_insert_eq. Qed.

(** What the [Add] case stores and returns: the quotient of the weighted
    sum by the result when the result is a nonzero constant, and otherwise
    the result expression itself. *)
Lemma propagateError_Add instr result arguments s arg0 lError arg1 rError s2 :
  getOpcode instr = OpAdd →
  operandsDerive instr arguments s arg0 lError arg1 rError s2 →
  let resultError :=
    weightedSum (extended lError arg0) arg0 (extended rError arg1) arg1 in
  let stored :=
    if nonzeroConstant result then UDivExpr_create resultError result else result in
  propagateError instr result arguments s
  = inr (Some stored, recordError instr (Some stored) s2).
Proof.
  intros Hop Hd. unfold propagateError. rewrite Hop.
  rewrite (operandErrors_derive _ _ _ _ _ _ _ _ Hd). simpl.
  destruct result as [ce ?| | | | | | | | | |]; try reflexivity. simpl.
  by case_bool_decide; case_decide.
Qed.

(** What the [Sub] case stores and returns: the quotient of the weighted
    sum by the result, whatever the result is. *)
Lemma propagateError_Sub instr result arguments s arg0 lError arg1 rError s2 :
  getOpcode instr = OpSub →
  operandsDerive instr arguments s arg0 lError arg1 rError s2 →
  let resultError :=
    weightedSum (extended lError arg0) arg0 (extended rError arg1) arg1 in
  let stored := UDivExpr_create resultError result in
  propagateError instr result arguments s
  = inr (Some stored, recordError instr (Some stored) s2).
Proof.
  intros Hop Hd. unfold propagateError. rewrite Hop.
  by rewrite (operandErrors_derive _ _ _ _ _ _ _ _ Hd).
Qed.

(** C9, amended: for a [Mul], [UDiv] or [SDiv] instruction whose operand
    errors are [lError] and [rError], [propagateError] returns, and stores
    for the instruction, the sum of the two errors, each taken as it is when
    its width is the width of its operand and passed through
    [ZExtExpr::create] to the width of the operand whenever the two widths
    differ, be the error narrower or wider.  No product with the operands
    and no division by the result is built. *)
Theorem product_error_is_sum instr result arguments s arg0 lError arg1 rError s2 :
  getOpcode instr = OpMul ∨ getOpcode instr = OpUDiv ∨ getOpcode instr = OpSDiv →
  operandsDerive instr arguments s arg0 lError arg1 rError s2 →
  let aligned (error arg : Expr) :=
    if decide (getWidth error = getWidth arg) then error
    else ZExtExpr_create error (getWidth arg) in
  let sum := AddExpr_create (aligned lError arg0) (aligned rError arg1) in
  ∃ s3,
    propagateError instr result arguments s = inr (Some sum, s3)
    ∧ valueErrorMap s3 !! instAddr instr = Some (Some sum).
Proof.
  intros Hop Hd aligned sum.
  assert (Haligned : ∀ error arg, extended error arg = aligned error arg).
  { intros error arg. unfold extended, aligned. by repeat case_decide. }
  exists (recordError instr (Some sum) s2).
  split; [|apply recordError_lookup].
  subst sum. rewrite <- !Haligned. unfold propagateError.
  destruct Hop as [->|[->| ->]];
    by rewrite (operandErrors_derive _ _ _ _ _ _ _ _ Hd).
Qed.

End LedgerProperties.

(** ** The guard of the [Add] case *)

(** [getError] never calls [UDivExpr::create]. *)
Lemma getError_withUDiv (b : ExprBuilder) f valueExpr value s :
  SymbolicError.getError (builder := withUDiv f b) valueExpr value s
  = SymbolicError.getError (builder := b) valueExpr value s.
Proof. reflexivity. Qed.

(** The [Add] case builds no division unless the result is a nonzero
    constant: with a symbolic or a zero result, what it stores and returns
    does not depend on [UDivExpr::create]. *)
Lemma propagateError_Add_guarded (b : ExprBuilder) f instr result arguments s :
  getOpcode instr = OpAdd →
  nonzeroConstant result = false →
  SymbolicError.propagateError (builder := withUDiv f b) instr result arguments s
  = SymbolicError.propagateError (builder := b) instr result arguments s.
Proof.
  intros Hop Hnz. unfold SymbolicError.propagateError. rewrite Hop.
  unfold SymbolicError.operandErrors.
  destruct (getOperand instr 0) as [|lOp]; [done|].
  destruct (getOperand instr 1) as [|rOp]; [done|].
  destruct (argument arguments 0) as [|arg0]; [done|].
  simpl. rewrite getError_withUDiv.
  destruct (SymbolicError.getError arg0 lOp s) as [|[lError s1]]; [done|].
  destruct (argument arguments 1) as [|arg1]; [done|].
  simpl. rewrite getError_withUDiv.
  destruct (SymbolicError.getError arg1 rOp s1) as [|[rError s2]]; [done|].
  simpl. destruct result as [ce ?| | | | | | | | | |]; try reflexivity.
  simpl in Hnz. apply bool_decide_eq_false in Hnz. by case_decide.
Qed.

(** * Properties of the solver *)

Section SolverProperties.
Context {backend : Z3Backend}.
Import Z3ErrorSolverImpl.

(** ** Numeral decoding *)

(** The bit patterns of a few doubles, against their IEEE-754 encodings. *)
Example double_bits_one : double_bits (double_of_int 1) = 0x3FF0000000000000.
Proof. reflexivity. Qed.

Example double_bits_minus_two : double_bits (double_of_int (-2)) = 0xC000000000000000.
Proof. reflexivity. Qed.

Example double_bits_forty_two : double_bits (double_of_int 42) = 0x4045000000000000.
Proof. reflexivity. Qed.

Example double_bits_third :
  double_bits (double_div (double_of_int 1) (double_of_int 3)) = 0x3FD5555555555555.
Proof. reflexivity. Qed.

Example double_bits_tenth :
  double_bits (double_div (double_of_int 1) (double_of_int 10)) = 0x3FB999999999999A.
Proof. reflexivity. Qed.

Lemma littleEndianBytes_S n v :
  littleEndianBytes (S n) v = v mod 256 :: littleEndianBytes n (v / 256).
Proof.
  unfold littleEndianBytes. simpl. rewrite Z.div_1_r. f_equal.
  rewrite <- seq_shift, map_map. apply map_ext. intros i.
  rewrite Nat2Z.inj_succ, Z.pow_succ_r by lia.
  by rewrite Z.div_div by lia.
Qed.

(** The byte loop writes the little-endian encoding, for every integer
    (a negative one reads as its two's complement, the shift being
    arithmetic). *)
Lemma pushBytes_littleEndian n : ∀ v data,
  pushBytes n v data = data ++ littleEndianBytes n v.
Proof.
  induction n as [|n IH]; intros v data.
  - simpl. by rewrite app_nil_r.
  - simpl pushBytes. rewrite IH, littleEndianBytes_S, <- app_assoc. simpl.
    change 255 with (Z.ones 8). rewrite Z.land_ones by lia.
    by rewrite Z.shiftr_div_pow2 by lia.
Qed.

Lemma byte_of_mod v i :
  0 ≤ i < 8 →
  ((v mod 2 ^ 64) / 256 ^ i) mod 256 = (v / 256 ^ i) mod 256.
Proof.
  intros Hi.
  assert (HP : 0 < 256 ^ i) by (apply Z.pow_pos_nonneg; lia).
  assert (HK : 0 < 256 ^ (7 - i)) by (apply Z.pow_pos_nonneg; lia).
  assert (Hsplit : 2 ^ 64 = 256 ^ i * (256 * 256 ^ (7 - i))).
  { rewrite <- (Z.pow_succ_r 256) by lia. rewrite <- Z.pow_add_r by lia.
    replace (i + Z.succ (7 - i)) with 8 by lia. reflexivity. }
  rewrite Hsplit.
  rewrite Z.rem_mul_r by lia.
  rewrite (Z.mul_comm (256 ^ i) ((v / 256 ^ i) mod _)).
  rewrite Z.div_add by lia.
  rewrite Z.div_small by (apply Z.mod_pos_bound; lia).
  rewrite Z.add_0_l.
  rewrite Z.rem_mul_r by lia.
  rewrite Z.mul_comm, Z.mod_add by lia.
  apply Z.mod_mod. lia.
Qed.

(** On eight bytes an integer and its residue modulo [2 ^ 64], its two's
    complement on 64 bits, have the same encoding. *)
Lemma littleEndianBytes_mod v :
  littleEndianBytes 8 (v mod 2 ^ 64) = littleEndianBytes 8 v.
Proof.
  unfold littleEndianBytes. apply map_ext_in. intros i Hi.
  apply in_seq in Hi. apply byte_of_mod. lia.
Qed.

Lemma Z3_get_numeral_int_fits v :
  INT_MIN ≤ v ≤ INT_MAX → Z3_get_numeral_int (Z3_numeral v 1) = Some v.
Proof. intros Hfit. unfold Z3_get_numeral_int. by case_decide. Qed.

Lemma Z3_get_numeral_int_fraction num den :
  den ≠ 1%positive → Z3_get_numeral_int (Z3_numeral num den) = None.
Proof. intros Hden. by destruct den. Qed.

Lemma decodeData_integer v :
  INT_MIN ≤ v ≤ INT_MAX →
  decodeData (Z3_numeral v 1) = inr (littleEndianBytes 8 v).
Proof.
  intros Hfit. unfold decodeData.
  rewrite (Z3_get_numeral_int_fits v Hfit).
  by rewrite pushBytes_littleEndian.
Qed.

Lemma decodeData_rational num den :
  den ≠ 1%positive → INT_MIN ≤ num ≤ INT_MAX → Z.pos den ≤ INT_MAX →
  decodeData (Z3_numeral num den)
  = inr (doubleBytes (double_div (double_of_int num) (double_of_int (Z.pos den)))).
Proof.
  intros Hden Hnum Hd. unfold decodeData.
  rewrite (Z3_get_numeral_int_fraction num den Hden).
  cbn [Z3_get_numerator Z3_get_denominator].
  rewrite (Z3_get_numeral_int_fits num Hnum).
  rewrite Z3_get_numeral_int_fits by (unfold INT_MIN in *; lia).
  by rewrite pushBytes_littleEndian.
Qed.

Lemma decodeData_decodable a :
  decodable a → ∃ data, decodeData a = inr data ∧ length data = 8%nat.
Proof.
  intros (num & den & -> & Hnum & Hden).
  destruct (decide (den = 1%positive)) as [->|Hne].
  - rewrite decodeData_integer by done. by eexists.
  - rewrite decodeData_rational by done. by eexists.
Qed.

Lemma decodeUpperBound_decodable a :
  decodable a → ∃ result, decodeUpperBound a = inr result.
Proof.
  intros (num & den & -> & Hnum & Hden). unfold decodeUpperBound.
  destruct (decide (den = 1%positive)) as [->|Hne].
  - rewrite (Z3_get_numeral_int_fits num Hnum). by eexists.
  - rewrite (Z3_get_numeral_int_fraction num den Hne).
    cbn [Z3_get_numerator Z3_get_denominator].
    rewrite (Z3_get_numeral_int_fits num Hnum).
    rewrite Z3_get_numeral_int_fits by (unfold INT_MIN in *; lia).
    by eexists.
Qed.

(** ** The response handlers *)

Lemma readValues_decodes theModel objects :
  modelDecodes theModel objects →
  ∀ vals, ∃ new,
    readValues theModel objects vals = inr (vals ++ new)
    ∧ length new = length objects.
Proof.
  induction 1 as [|array objects (v & Hv & Hdec) _ IH]; intros vals.
  - exists []. by rewrite app_nil_r.
  - simpl. rewrite Hv.
    destruct (decodeData_decodable v Hdec) as (data & Hdata & _).
    destruct Hdec as (num & den & -> & _). simpl. rewrite Hdata. simpl.
    destruct (IH (vals ++ [data])) as (new & -> & Hlen).
    exists (data :: new). rewrite <- app_assoc. simpl. by rewrite Hlen.
Qed.

Lemma readUpperBounds_decodes theSolver indices :
  (∀ idx, idx ∈ indices →
     ∃ inf ub eps rest,
       Z3_optimize_get_upper_as_vector theSolver idx = inf :: ub :: eps :: rest
       ∧ decodable ub) →
  ∀ vals, ∃ new,
    readUpperBounds theSolver indices vals = inr (vals ++ new)
    ∧ length new = length indices.
Proof.
  induction indices as [|idx indices IH]; intros Hall vals.
  - exists []. by rewrite app_nil_r.
  - destruct (Hall idx) as (inf & ub & eps & rest & Hvec & Hdec); [by left|].
    destruct (decodeUpperBound_decodable ub Hdec) as (result & Hres).
    simpl. rewrite Hvec. simpl. rewrite Hres. simpl.
    destruct (IH (λ i Hi, Hall i (list_elem_of_further _ _ _ Hi)) (vals ++ [result]))
      as (new & -> & Hlen).
    exists (result :: new). rewrite <- app_assoc. simpl. by rewrite Hlen.
Qed.

Lemma unknownStatus_timeout reason :
  reason = "timeout" ∨ reason = "canceled" →
  unknownStatus reason = inr SOLVER_RUN_STATUS_TIMEOUT.
Proof. intros Hr. unfold unknownStatus. by case_decide. Qed.

Lemma unknownStatus_unknown : unknownStatus "unknown" = inr SOLVER_RUN_STATUS_FAILURE.
Proof. reflexivity. Qed.

Lemma unknownStatus_other reason :
  reason ≠ "timeout" → reason ≠ "canceled" → reason ≠ "unknown" →
  unknownStatus reason = inl (Aborted reason).
Proof.
  intros H1 H2 H3. unfold unknownStatus.
  case_decide as Hd; [by destruct Hd|]. by case_decide.
Qed.

(** C7, amended: the two response handlers map the outcome of the backend
    alike.  SAT gives the status Solvable with [hasSolution] true: at once
    when no objects are requested, and after the decoding of one value per
    requested array (appended to [values]) when the backend gives a model,
    resp. upper bounds, whose values are numerals with a numerator and a
    denominator that fit an [int].  UNSAT gives Unsolvable with
    [hasSolution] false and [values] as it was.  UNDEF gives Timeout for
    the reasons "timeout" and "canceled", Failure for "unknown", and aborts
    for any other reason. *)
Theorem response_mapping theSolver objects (vals : option (list (list Z)))
    (out : Optimum) (hs : bool) :
  (* handleSolverResponse *)
  handleSolverResponse theSolver Z3_L_TRUE None None hs
  = inr (SOLVER_RUN_STATUS_SUCCESS_SOLVABLE, None, true)
  ∧ (∀ objs old theModel,
        Z3_solver_get_model theSolver = Some theModel →
        modelDecodes theModel objs →
        ∃ new,
          handleSolverResponse theSolver Z3_L_TRUE (Some objs) (Some old) hs
          = inr (SOLVER_RUN_STATUS_SUCCESS_SOLVABLE, Some (old ++ new), true)
          ∧ length new = length objs)
  ∧ handleSolverResponse theSolver Z3_L_FALSE objects vals hs
    = inr (SOLVER_RUN_STATUS_SUCCESS_UNSOLVABLE, vals, false)
  ∧ (Z3_solver_get_reason_unknown theSolver = "timeout"
     ∨ Z3_solver_get_reason_unknown theSolver = "canceled" →
     handleSolverResponse theSolver Z3_L_UNDEF objects vals hs
     = inr (SOLVER_RUN_STATUS_TIMEOUT, vals, hs))
  ∧ (Z3_solver_get_reason_unknown theSolver = "unknown" →
     handleSolverResponse theSolver Z3_L_UNDEF objects vals hs
     = inr (SOLVER_RUN_STATUS_FAILURE, vals, hs))
  ∧ (Z3_solver_get_reason_unknown theSolver ≠ "timeout" →
     Z3_solver_get_reason_unknown theSolver ≠ "canceled" →
     Z3_solver_get_reason_unknown theSolver ≠ "unknown" →
     handleSolverResponse theSolver Z3_L_UNDEF objects vals hs
     = inl (Aborted (Z3_solver_get_reason_unknown theSolver)))
  (* handleOptimizeResponse *)
  ∧ (values out = None →
     handleOptimizeResponse theSolver Z3_L_TRUE None out
     = inr (SOLVER_RUN_STATUS_SUCCESS_SOLVABLE,
            mkOptimum (infinity out) None (epsilon out) true))
  ∧ (∀ objs old,
        values out = Some old →
        upperBoundsDecode theSolver (length objs) →
        ∃ new,
          handleOptimizeResponse theSolver Z3_L_TRUE (Some objs) out
          = inr (SOLVER_RUN_STATUS_SUCCESS_SOLVABLE,
                 mkOptimum (infinity out) (Some (old ++ new)) (epsilon out) true)
          ∧ length new = length objs)
  ∧ handleOptimizeResponse theSolver Z3_L_FALSE objects out
    = inr (SOLVER_RUN_STATUS_SUCCESS_UNSOLVABLE,
           mkOptimum (infinity out) (values out) (epsilon out) false)
  ∧ (Z3_optimize_get_reason_unknown theSolver = "timeout"
     ∨ Z3_optimize_get_reason_unknown theSolver = "canceled" →
     handleOptimizeResponse theSolver Z3_L_UNDEF objects out
     = inr (SOLVER_RUN_STATUS_TIMEOUT, out))
  ∧ (Z3_optimize_get_reason_unknown theSolver = "unknown" →
     handleOptimizeResponse theSolver Z3_L_UNDEF objects out
     = inr (SOLVER_RUN_STATUS_FAILURE, out))
  ∧ (Z3_optimize_get_reason_unknown theSolver ≠ "timeout" →
     Z3_optimize_get_reason_unknown theSolver ≠ "canceled" →
     Z3_optimize_get_reason_unknown theSolver ≠ "unknown" →
     handleOptimizeResponse theSolver Z3_L_UNDEF objects out
     = inl (Aborted (Z3_optimize_get_reason_unknown theSolver))).
Proof.
  repeat apply conj; try reflexivity.
  - intros objs old theModel Hmodel Hdec. simpl. rewrite Hmodel.
    destruct (readValues_decodes theModel objs Hdec old) as (new & -> & Hlen).
    by exists new.
  - intros Hr. simpl. by rewrite (unknownStatus_timeout _ Hr).
  - intros Hr. simpl. by rewrite Hr.
  - intros H1 H2 H3. simpl. by rewrite (unknownStatus_other _ H1 H2 H3).
  - intros Hnone. simpl. by rewrite Hnone.
  - intros objs old Hold Hdec. simpl. rewrite Hold.
    destruct (readUpperBounds_decodes theSolver (seq 0 (length objs))) with (vals := old)
      as (new & -> & Hlen).
    { intros idx Hidx. apply Hdec. apply list_elem_of_In, in_seq in Hidx. lia. }
    exists new. by rewrite Hlen, length_seq.
  - intros Hr. simpl. by rewrite (unknownStatus_timeout _ Hr).
  - intros Hr. simpl. by rewrite Hr.
  - intros H1 H2 H3. simpl. by rewrite (unknownStatus_other _ H1 H2 H3).
Qed.

(** C3, amended: the buffer [handleSolverResponse] appends for a requested
    array whose value is the numeral [num/den], numerator and denominator
    fitting an [int].  For an integer numeral ([den = 1]) it is the
    little-endian encoding on eight bytes of the integer itself, in two's
    complement; for a fraction it is the little-endian encoding of the
    IEEE-754 double quotient of numerator by denominator. *)
Theorem numeral_buffer theSolver theModel array old hs num den :
  Z3_solver_get_model theSolver = Some theModel →
  Z3_model_eval theModel (getInitialRead array 0) = Some (Z3_numeral num den) →
  INT_MIN ≤ num ≤ INT_MAX → Z.pos den ≤ INT_MAX →
  let buffer :=
    if decide (den = 1%positive)
    then littleEndianBytes 8 (num mod 2 ^ 64)
    else doubleBytes (double_div (double_of_int num) (double_of_int (Z.pos den))) in
  handleSolverResponse theSolver Z3_L_TRUE (Some [array]) (Some old) hs
  = inr (SOLVER_RUN_STATUS_SUCCESS_SOLVABLE, Some (old ++ [buffer]), true).
Proof.
  intros Hmodel Heval Hnum Hden buffer. unfold handleSolverResponse.
  rewrite Hmodel. cbn [readValues]. rewrite Heval. cbn [is_numeral].
  assert (decodeData (Z3_numeral num den) = inr buffer) as ->; [|done].
  subst buffer. case_decide as Hone.
  - subst den. rewrite littleEndianBytes_mod. by apply decodeData_integer.
  - by apply decodeData_rational.
Qed.

(** ** The optimizer session *)

Lemma ctx_asserts (f : Expr → Z3_call) (l : list Expr) : ∀ st,
  foldl (λ st it, call (f it) st) st l
  = mkState (runStatusCode st) (solverParameters st) (ctx st ++ map f l) (stats st).
Proof.
  induction l as [|it l IH]; intros st; simpl.
  - rewrite app_nil_r. by destruct st.
  - rewrite IH. simpl. by rewrite <- app_assoc.
Qed.

Lemma ctx_objectives (f : Array → Z3_call) (l : list Array) : ∀ st,
  foldl (λ st array, call (f array) st) st l
  = mkState (runStatusCode st) (solverParameters st) (ctx st ++ map f l) (stats st).
Proof.
  induction l as [|it l IH]; intros st; simpl.
  - rewrite app_nil_r. by destruct st.
  - rewrite IH. simpl. by rewrite <- app_assoc.
Qed.

Lemma ctx_conclude hs st : ctx (conclude hs st).2 = ctx st.
Proof. unfold conclude. by case_decide. Qed.

(** The calls an optimizing query adds to the context: the constraints,
    one objective per requested array, the check; the goal of the query is
    not among them. *)
Lemma internalRunOptimize_session query arrays out st ok out' st' :
  internalRunOptimize query (Some arrays) out st = inr (ok, out', st') →
  ctx st' = ctx st ++ optimizeSession (solverParameters st) query arrays.
Proof.
  unfold internalRunOptimize. rewrite ctx_asserts, ctx_objectives. simpl.
  match goal with
  | |- context [handleOptimizeResponse ?c ?sat ?o ?out] =>
      destruct (handleOptimizeResponse c sat o out) as [|[status out1]];
        [discriminate|]
  end.
  simpl.
  match goal with
  | |- context [conclude ?h ?st0] =>
      pose proof (ctx_conclude h st0) as Hc; destruct (conclude h st0) as [b st1]
  end.
  intros [= _ _ <-]. simpl in Hc. rewrite Hc. simpl.
  unfold optimizeSession. rewrite <- !app_assoc. reflexivity.
Qed.

(** The calls a satisfiability query adds to the context: the constraints,
    the negated goal, the check. *)
Lemma internalRunSolver_session query objects vals hs st ok vals' hs' st' :
  internalRunSolver query objects vals hs st = inr (ok, vals', hs', st') →
  ctx st' = ctx st ++ solverSession (solverParameters st) query.
Proof.
  unfold internalRunSolver. rewrite ctx_asserts.
  assert (Hobj : ∀ st0 : State,
             ctx (if objects is Some _ then set_stats inc_queryCounterexamples st0 else st0)
             = ctx st0) by (intros; by destruct objects).
  match goal with
  | |- context [handleSolverResponse ?c ?sat ?o ?v ?h] =>
      destruct (handleSolverResponse c sat o v h) as [|[[status v1] h1]];
        [discriminate|]
  end.
  simpl.
  match goal with
  | |- context [conclude ?h ?st0] =>
      pose proof (ctx_conclude h st0) as Hc; destruct (conclude h st0) as [b st1]
  end.
  intros [= _ _ _ <-]. simpl in Hc. rewrite Hc. simpl. rewrite Hobj. simpl.
  unfold solverSession. rewrite <- !app_assoc. reflexivity.
Qed.

(** Neither coefficient vector is written by an optimizing query. *)
Lemma handleOptimizeResponse_coefficients theSolver satisfiable objects out status out' :
  handleOptimizeResponse theSolver satisfiable objects out = inr (status, out') →
  infinity out' = infinity out ∧ epsilon out' = epsilon out.
Proof.
  unfold handleOptimizeResponse. destruct satisfiable.
  - by intros [= _ <-].
  - destruct (unknownStatus _); [discriminate|]. by intros [= _ <-].
  - destruct objects as [objs|]; simpl; destruct (values out) as [vals|];
      try discriminate; [|by intros [= _ <-]].
    destruct (readUpperBounds _ _ _); [discriminate|]. by intros [= _ <-].
Qed.

Lemma internalRunOptimize_coefficients query objects out st ok out' st' :
  internalRunOptimize query objects out st = inr (ok, out', st') →
  infinity out' = infinity out ∧ epsilon out' = epsilon out.
Proof.
  unfold internalRunOptimize. destruct objects as [arrays|]; [|discriminate].
  match goal with
  | |- context [handleOptimizeResponse ?c ?sat ?o ?out] =>
      destruct (handleOptimizeResponse c sat o out) as [|[status out1]] eqn:Hh;
        [discriminate|]
  end.
  simpl.
  match goal with
  | |- context [conclude ?h ?st0] => destruct (conclude h st0) as [b st1]
  end.
  intros [= _ <- _]. by apply handleOptimizeResponse_coefficients in Hh.
Qed.

End SolverProperties.

(** * Concrete runs *)

(** The operand errors of the sample instructions in the empty ledger: the
    error bytes of [x] and [y]. *)
Lemma sample_operands_derive (op : Opcode) :
  ∃ s2,
    operandsDerive (builder := allocBuilder) (Sample.binary op)
      [Sample.word Sample.x; Sample.word Sample.y] SymbolicError.initial
      (Sample.word Sample.x) (Sample.errorByte Sample.x)
      (Sample.word Sample.y) (Sample.errorByte Sample.y) s2.
Proof.
  eexists. exists 1%N, 2%N. eexists.
  repeat split; vm_compute; reflexivity.
Qed.

(** C8 at address 4096 of the empty ledger. *)
Lemma store_then_load_witness :
  SymbolicError.storedError SymbolicError.initial !! 4096 = None
  ∧ ∃ s2,
      SymbolicError.executeLoad 7%N (Constant 4096 64) SymbolicError.initial
      = inr (Constant 0 8, s2)
      ∧ SymbolicError.storedError s2 = SymbolicError.storedError SymbolicError.initial.
Proof.
  split; [reflexivity|].
  apply (store_then_load 4096 64%N 64%N (Constant 1 8) 7%N SymbolicError.initial).
  reflexivity.
Defined.

(** C1 fails on the code.  For the [Add] of two symbolic 32-bit values,
    whose result is symbolic, [propagateError] stores and returns the result
    expression itself, the value of the instruction, not the weighted sum of
    the operand errors (which it builds and drops); for the [Sub] of the
    same values it stores and returns the quotient of the weighted sum by
    the symbolic result. *)
Theorem sum_error_of_symbolic_result :
  let a := Sample.word Sample.x in
  let b := Sample.word Sample.y in
  let weighted :=
    weightedSum (builder := allocBuilder)
      (ZExt (Sample.errorByte Sample.x) 32) a
      (ZExt (Sample.errorByte Sample.y) 32) b in
  nonzeroConstant (Add a b) = false
  ∧ nonzeroConstant (Sub a b) = false
  ∧ (∃ s',
        SymbolicError.propagateError (builder := allocBuilder)
          (Sample.binary OpAdd) (Add a b) [a; b] SymbolicError.initial
        = inr (Some (Add a b), s')
        ∧ SymbolicError.valueErrorMap s' !! 3%N = Some (Some (Add a b)))
  ∧ Add a b ≠ weighted
  ∧ (∃ s',
        SymbolicError.propagateError (builder := allocBuilder)
          (Sample.binary OpSub) (Sub a b) [a; b] SymbolicError.initial
        = inr (Some (UDiv weighted (Sub a b)), s')
        ∧ SymbolicError.valueErrorMap s' !! 3%N
          = Some (Some (UDiv weighted (Sub a b))))
  ∧ UDiv weighted (Sub a b) ≠ weighted.
Proof.
  repeat split; try discriminate.
  - eexists. split; vm_compute; reflexivity.
  - eexists. split; vm_compute; reflexivity.
Qed.

(** C4 fails on the code in the [Sub] case.  For [x - x] with the result
    folded to the constant 0, and for [x - y] with a symbolic result,
    [propagateError] builds the division of the weighted sum by the result:
    a division by the zero constant in the first run, by a symbolic value
    in the second. *)
Theorem difference_divides_by_any_result :
  let a := Sample.word Sample.x in
  let b := Sample.word Sample.y in
  let ea := ZExt (Sample.errorByte Sample.x) 32 in
  let eb := ZExt (Sample.errorByte Sample.y) 32 in
  nonzeroConstant (Constant 0 32) = false
  ∧ (∃ s',
        SymbolicError.propagateError (builder := allocBuilder)
          (Sample.binary OpSub) (Constant 0 32) [a; a] SymbolicError.initial
        = inr (Some (UDiv (Add (Mul ea a) (Mul ea a)) (Constant 0 32)), s'))
  ∧ nonzeroConstant (Sub a b) = false
  ∧ (∃ s',
        SymbolicError.propagateError (builder := allocBuilder)
          (Sample.binary OpSub) (Sub a b) [a; b] SymbolicError.initial
        = inr (Some (UDiv (Add (Mul ea a) (Mul eb b)) (Sub a b)), s')).
Proof.
  repeat split.
  - eexists. vm_compute. reflexivity.
  - eexists. vm_compute. reflexivity.
Qed.

(** C6, amended, at the symbolic address read from [x]. *)
Lemma symbolic_address_is_fatal_witness :
  let address := Sample.word Sample.x in
  isConstant address = false
  ∧ (∀ value s,
        SymbolicError.executeLoad value address s
        = inl (AssertionFailed "non-constant address"))
  ∧ (∀ error s,
        SymbolicError.executeStore address (Some error) s
        = inl (AssertionFailed "non-constant address"))
  ∧ (∀ s, SymbolicError.executeStore address None s = inr s).
Proof.
  split; [reflexivity|].
  apply (symbolic_address_is_fatal (Sample.word Sample.x)). reflexivity.
Defined.

(** C9 at the product of the two sample values: the sum of the two error
    bytes, each zero-extended from 8 to 32 bits. *)
Lemma product_error_is_sum_witness :
  let a := Sample.word Sample.x in
  let b := Sample.word Sample.y in
  let sum :=
    Add (ZExt (Sample.errorByte Sample.x) 32) (ZExt (Sample.errorByte Sample.y) 32) in
  ∃ s3,
    SymbolicError.propagateError (builder := allocBuilder)
      (Sample.binary OpMul) (Mul a b) [a; b] SymbolicError.initial
    = inr (Some sum, s3)
    ∧ SymbolicError.valueErrorMap s3 !! 3%N = Some (Some sum).
Proof.
  intros a b sum.
  edestruct (product_error_is_sum (builder := allocBuilder)
               (Sample.binary OpMul) (Mul a b) [a; b] SymbolicError.initial
               a (Sample.errorByte Sample.x) b (Sample.errorByte Sample.y))
    as (s3 & Hrun & Hmap).
  - left. reflexivity.
  - exists 1%N, 2%N. eexists. repeat split; vm_compute; reflexivity.
  - exists s3. split; [exact Hrun | exact Hmap].
Defined.

(** C9, as stated, fails: an error wider than its operand is not summed as
    it is.  With the 32-bit error [wide] cached for the first operand of a
    product of two 8-bit reads, [propagateError] sums
    [ZExtExpr::create(wide, 8)], not [wide], with the error of the second
    operand. *)
Lemma wider_error_is_not_summed_as_is :
  let wide := ZExt (Sample.errorByte Sample.x) 32 in
  let a := Read Sample.x (Constant 0 32) in
  let b := Read Sample.y (Constant 0 32) in
  let s := SymbolicError.mkState {[ 1%N := Some wide ]} ∅ ∅ [] in
  @getWidth allocBuilder wide = 32%N
  ∧ @getWidth allocBuilder a = 8%N
  ∧ (∃ s1, SymbolicError.getError (builder := allocBuilder) a 1%N s = inr (wide, s1))
  ∧ (∃ s',
       SymbolicError.propagateError (builder := allocBuilder) (Sample.binary OpMul)
         (Mul a b) [a; b] s
       = inr (Some (Add (ZExt wide 8) (Sample.errorByte Sample.y)), s'))
  ∧ Add (ZExt wide 8) (Sample.errorByte Sample.y)
    ≠ Add wide (Sample.errorByte Sample.y).
Proof.
  repeat split; try discriminate.
  - eexists. vm_compute. reflexivity.
  - eexists. vm_compute. reflexivity.
Qed.

(** C10 at the array [x]: created by the first reference, reused by the
    next. *)
Lemma error_array_created_once_witness :
  let E := mkArray "_unspecified_error_x" 8 in
  (∃ s',
      SymbolicError.getError (builder := allocBuilder)
        (Sample.word Sample.x) 1%N SymbolicError.initial
      = inr (Read E (Constant 0 8), s')
      ∧ name (unspecifiedErrorArray Sample.x) = "_unspecified_error_x"
      ∧ SymbolicError.arrayErrorArrayMap s' = <[Sample.x := Some E]> ∅
      ∧ SymbolicError.errorArrayCache s' = [E])
  ∧ (∃ s',
      SymbolicError.getError (builder := allocBuilder)
        (Read Sample.x (Constant 2 32)) 2%N
        (SymbolicError.mkState ∅ {[Sample.x := Some E]} ∅ [E])
      = inr (Read E (Constant 0 8), s')
      ∧ SymbolicError.arrayErrorArrayMap s' = {[Sample.x := Some E]}
      ∧ SymbolicError.errorArrayCache s' = [E]).
Proof.
  intros E.
  destruct (error_array_created_once (builder := allocBuilder) Sample.x)
    as (Hfirst & Hnext & _).
  split.
  - apply (Hfirst (Sample.word Sample.x) 1%N SymbolicError.initial).
    + right. eexists _, _. reflexivity.
    + right. left. reflexivity.
    + left. reflexivity.
  - destruct (Hnext (Read Sample.x (Constant 2 32)) 2%N
                (SymbolicError.mkState ∅ {[Sample.x := Some E]} ∅ [E]) E)
      as (s' & Hrun & Hmap & Hcache).
    + left. eexists. reflexivity.
    + right. left. reflexivity.
    + vm_compute. reflexivity.
    + exists s'. split; [exact Hrun|]. split; [exact Hmap | exact Hcache].
Defined.

(** C7 at a sample backend: satisfiable, every value the numeral 1/3. *)
Lemma response_mapping_witness :
  let backend := constBackend Z3_L_TRUE "timeout" (Z3_numeral 1 3)
                   [Z3_numeral 0 1; Z3_numeral 1 3; Z3_numeral 0 1] in
  (∃ new,
      Z3ErrorSolverImpl.handleSolverResponse (backend := backend) []
        Z3_L_TRUE (Some [Sample.x]) (Some []) false
      = inr (SOLVER_RUN_STATUS_SUCCESS_SOLVABLE, Some ([] ++ new), true)
      ∧ length new = 1%nat)
  ∧ Z3ErrorSolverImpl.handleSolverResponse (backend := backend) []
      Z3_L_UNDEF (Some [Sample.x]) (Some []) false
    = inr (SOLVER_RUN_STATUS_TIMEOUT, Some [], false)
  ∧ (∃ new,
      Z3ErrorSolverImpl.handleOptimizeResponse (backend := backend) []
        Z3_L_TRUE (Some [Sample.x])
        (Z3ErrorSolverImpl.mkOptimum (Some []) (Some []) (Some []) false)
      = inr (SOLVER_RUN_STATUS_SUCCESS_SOLVABLE,
             Z3ErrorSolverImpl.mkOptimum (Some []) (Some ([] ++ new)) (Some []) true)
      ∧ length new = 1%nat).
Proof.
  intros backend.
  pose proof (response_mapping (backend := backend) [] (Some [Sample.x]) (Some [])
                (Z3ErrorSolverImpl.mkOptimum (Some []) (Some []) (Some []) false) false)
    as (_ & Hsat & _ & Htimeout & _ & _ & _ & Hopt & _).
  split; [|split].
  - apply (Hsat [Sample.x] [] (λ _, Some (Z3_numeral 1 3))); [reflexivity|].
    constructor; [|constructor].
    exists (Z3_numeral 1 3). split; [reflexivity|].
    exists 1, 3%positive. repeat split; vm_compute; congruence.
  - apply Htimeout. left. reflexivity.
  - apply (Hopt [Sample.x] []); [reflexivity|].
    intros idx Hidx. eexists _, _, _, _. split; [reflexivity|].
    exists 1, 3%positive. repeat split; vm_compute; congruence.
Defined.

(** C7, as stated, fails: a satisfiable check does not always yield
    Solvable.  When the value of a requested array, or the upper bound of
    an objective, is the integer [2 ^ 31] or the fraction [1 / 2 ^ 31],
    whose parts do not all fit an [int], both handlers stop at the assertion
    "failed to get value back". *)
Lemma satisfiable_response_stops_at_decoding :
  let big := Z3_numeral (2 ^ 31) 1 in
  let tiny := Z3_numeral 1 (2 ^ 31) in
  let zero := Z3_numeral 0 1 in
  let out := Z3ErrorSolverImpl.mkOptimum (Some []) (Some []) (Some []) false in
  Z3ErrorSolverImpl.handleSolverResponse
    (backend := constBackend Z3_L_TRUE "" big [zero; big; zero]) []
    Z3_L_TRUE (Some [Sample.x]) (Some []) false
  = inl (AssertionFailed "failed to get value back")
  ∧ Z3ErrorSolverImpl.handleSolverResponse
      (backend := constBackend Z3_L_TRUE "" tiny [zero; tiny; zero]) []
      Z3_L_TRUE (Some [Sample.x]) (Some []) false
    = inl (AssertionFailed "failed to get value back")
  ∧ Z3ErrorSolverImpl.handleOptimizeResponse
      (backend := constBackend Z3_L_TRUE "" big [zero; big; zero]) []
      Z3_L_TRUE (Some [Sample.x]) out
    = inl (AssertionFailed "failed to get value back")
  ∧ Z3ErrorSolverImpl.handleOptimizeResponse
      (backend := constBackend Z3_L_TRUE "" tiny [zero; tiny; zero]) []
      Z3_L_TRUE (Some [Sample.x]) out
    = inl (AssertionFailed "failed to get value back").
Proof. repeat split; vm_compute; reflexivity. Qed.

(** C3, as stated, fails: for the integer numeral 42 the buffer holds the
    bytes of the integer 42, which are not those of the double 42.0. *)
Lemma integer_numeral_is_not_encoded_as_double :
  let backend := constBackend Z3_L_TRUE "" (Z3_numeral 42 1) [] in
  Z3_get_numeral_int (Z3_numeral 42 1) = Some 42
  ∧ Z3ErrorSolverImpl.handleSolverResponse (backend := backend) []
      Z3_L_TRUE (Some [Sample.x]) (Some []) false
    = inr (SOLVER_RUN_STATUS_SUCCESS_SOLVABLE, Some [[42; 0; 0; 0; 0; 0; 0; 0]], true)
  ∧ doubleBytes (double_of_int 42) = [0; 0; 0; 0; 0; 0; 69; 64]
  ∧ Z3ErrorSolverImpl.decodeData (Z3_numeral 42 1)
    ≠ inr (doubleBytes (double_of_int 42)).
Proof.
  intros backend. repeat split; try (vm_compute; reflexivity).
  vm_compute. discriminate.
Qed.

(** C3, amended, at the numeral 1/3: the bytes of the double
    0x3FD5555555555555, least significant first. *)
Lemma numeral_buffer_witness :
  let backend := constBackend Z3_L_TRUE "" (Z3_numeral 1 3) [] in
  Z3ErrorSolverImpl.handleSolverResponse (backend := backend) []
    Z3_L_TRUE (Some [Sample.x]) (Some []) false
  = inr (SOLVER_RUN_STATUS_SUCCESS_SOLVABLE,
         Some [[85; 85; 85; 85; 85; 85; 213; 63]], true).
Proof.
  intros backend.
  apply (numeral_buffer (backend := backend) [] (λ _, Some (Z3_numeral 1 3))
           Sample.x [] false 1 3%positive).
  - reflexivity.
  - reflexivity.
  - unfold INT_MIN, INT_MAX. lia.
  - unfold INT_MAX. lia.
Defined.

(** C2 fails on the code.  On the sample query, [computeOptimalValues]
    returns after handing the optimizer the two constraints, one objective
    per array and the check; the negation of the goal is not asserted.  The
    satisfiability query [computeInitialValues], on the same query, does
    assert it. *)
Theorem optimizer_session_lacks_negated_goal :
  let negatedGoal := Z3_mk_not (construct (expr Sample.query)) in
  (∃ out st',
      Z3ErrorSolverImpl.computeOptimalValues (backend := Sample.satisfiable)
        Sample.query Sample.objectives [] [] [] false Z3ErrorSolverImpl.initial
      = inr (true, out, st')
      ∧ Z3ErrorSolverImpl.ctx st'
        = [call_mk_optimize;
           call_optimize_set_params (mkParams UINT_MAX "pareto");
           call_optimize_assert (construct Sample.constraint0);
           call_optimize_assert (construct Sample.constraint1);
           call_optimize_maximize (buildReal "_unspecified_error_x");
           call_optimize_maximize (buildReal "_unspecified_error_y");
           call_optimize_check]
      ∧ call_optimize_assert negatedGoal ∉ Z3ErrorSolverImpl.ctx st')
  ∧ (∃ vals st',
      Z3ErrorSolverImpl.computeInitialValues (backend := Sample.satisfiable)
        Sample.query Sample.objectives [] false Z3ErrorSolverImpl.initial
      = inr (true, vals, true, st')
      ∧ call_solver_assert negatedGoal ∈ Z3ErrorSolverImpl.ctx st').
Proof.
  intros negatedGoal. split.
  - eexists _, _. split; [vm_compute; reflexivity|]. split; [reflexivity|].
    cbn [Z3ErrorSolverImpl.ctx]. rewrite !not_elem_of_cons.
    repeat split; try discriminate. apply not_elem_of_nil.
  - eexists _, _. split; [vm_compute; reflexivity|].
    cbn [Z3ErrorSolverImpl.ctx]. rewrite !elem_of_cons. do 4 right. by left.
Qed.

(** C5 fails on the code.  On a satisfiable check whose upper bounds carry
    the infinity coefficient 1, the value 5 and the epsilon coefficient 1,
    [computeOptimalValues] appends the double 5.0 to [values] for each of
    the two requested arrays and leaves the vectors [infinity] and
    [epsilon] empty. *)
Theorem optimum_lacks_coefficients :
  ∃ st',
    Z3ErrorSolverImpl.computeOptimalValues (backend := Sample.satisfiable)
      Sample.query Sample.objectives [] [] [] false Z3ErrorSolverImpl.initial
    = inr (true,
           Z3ErrorSolverImpl.mkOptimum (Some [])
             (Some [double_of_int 5; double_of_int 5]) (Some []) true,
           st').
Proof. eexists. vm_compute. reflexivity. Qed.

(** * Further properties of the error ledger *)

Section LedgerFurther.
Context {builder : ExprBuilder}.
Import SymbolicError.

Implicit Types (s : State) (value : ValuePtr).

(** ** [getError] *)

Lemma getError_unfold valueExpr value s :
  getError valueExpr value s
  = let '(errorAmount, s0) := cachedError value s in
    match errorAmount with
    | Some errorAmount => inr (errorAmount, s0)
    | None =>
        '(ret, s1) ← deriveError valueExpr s0;
        mret (ret, memoize value ret s1)
    end.
Proof. destruct valueExpr; reflexivity. Qed.

Lemma cachedError_resolved value s ret :
  value ≠ nullValue → valueErrorMap s !! value = Some (Some ret) →
  cachedError value s = (Some ret, s).
Proof.
  intros Hnn Hv. unfold cachedError, subscript.
  destruct (decide (value = nullValue)); [done|].
  rewrite Hv. by rewrite set_valueErrorMap_id.
Qed.

Lemma getError_resolved valueExpr value s ret :
  value ≠ nullValue → valueErrorMap s !! value = Some (Some ret) →
  getError valueExpr value s = inr (ret, s).
Proof.
  intros Hnn Hv. rewrite getError_unfold.
  by rewrite (cachedError_resolved value s ret Hnn Hv).
Qed.

Lemma getError_records valueExpr value s ret s' :
  value ≠ nullValue → getError valueExpr value s = inr (ret, s') →
  valueErrorMap s' !! value = Some (Some ret).
Proof.
  intros Hnn. rewrite getError_unfold. unfold cachedError, subscript.
  destruct (decide (value = nullValue)); [done|].
  destruct (valueErrorMap s !! value) as [[cached|]|] eqn:Hv.
  - intros [= <- <-]. by rewrite set_valueErrorMap_id.
  - destruct (deriveError valueExpr _) as [|[r s1]]; [discriminate|].
    intros [= <- <-]. unfold memoize.
    destruct (decide (value = nullValue)); [done|]. apply lookup_insert_eq.
  - destruct (deriveError valueExpr _) as [|[r s1]]; [discriminate|].
    intros [= <- <-]. unfold memoize.
    destruct (decide (value = nullValue)); [done|]. apply lookup_insert_eq.
Qed.

(** X1: the error of a value is derived once.  After [getError] has
    returned for a non-null value, every later [getError] for that value
    returns the same expression, whatever value expression it is given, and
    leaves the ledger as it is (in particular it creates no error array). *)
Theorem getError_memoised valueExpr value s ret s' :
  value ≠ nullValue →
  getError valueExpr value s = inr (ret, s') →
  ∀ valueExpr', getError valueExpr' value s' = inr (ret, s').
Proof.
  intros Hnn Hget valueExpr'. apply getError_resolved; [done|].
  by apply (getError_records valueExpr value s).
Qed.

(** X2: for an unresolved value, [getError] returns exactly on the
    expressions built from constants, reads, concatenations led by a read,
    sign extensions and sums; on every other expression it stops at the
    assertion "malformed expression", or at the null result of the cast of
    the left part of a concatenation that is no read. *)
Theorem getError_returns_iff_wellShaped valueExpr :
  ∀ value s, unresolved value s →
    if wellShaped valueExpr
    then ∃ ret s', getError valueExpr value s = inr (ret, s')
    else getError valueExpr value s = inl (AssertionFailed "malformed expression")
         ∨ getError valueExpr value s = inl NullDereference.
Proof.
  assert (Hnull : ∀ s, unresolved nullValue s) by (intros; by left).
  induction valueExpr as
    [v w|a index _|lhs _ rhs _|kid IH w|kid _ w|k0 IH0 k1 IH1| | | | |];
    intros value s Hu; rewrite getError_unfold;
    destruct (cachedError_unresolved value s Hu) as (s0 & -> & _);
    cbn [wellShaped deriveError]; try (left; reflexivity).
  - by eexists _, _.
  - destruct (readErrorArray a s0). by eexists _, _.
  - destruct lhs; try (right; reflexivity).
    destruct (readErrorArray root s0). by eexists _, _.
  - specialize (IH nullValue s0 (Hnull s0)).
    destruct (wellShaped kid).
    + destruct IH as (ret & s1 & ->). by eexists _, _.
    + destruct IH as [-> | ->]; [by left | by right].
  - specialize (IH0 nullValue s0 (Hnull s0)).
    destruct (wellShaped k0); cbn [andb].
    + destruct IH0 as (r0 & s1 & ->). cbn.
      specialize (IH1 nullValue s1 (Hnull s1)).
      destruct (wellShaped k1).
      * destruct IH1 as (r1 & s2 & ->). by eexists _, _.
      * destruct IH1 as [-> | ->]; [by left | by right].
    + destruct IH0 as [-> | ->]; [by left | by right].
Qed.

Lemma cachedError_other value s u :
  u ≠ value ∨ value = nullValue →
  valueErrorMap (cachedError value s).2 !! u = valueErrorMap s !! u.
Proof.
  intros Hu. unfold cachedError, subscript.
  destruct (decide (value = nullValue)) as [|Hnn]; [done|].
  destruct Hu as [Hu|]; [|done].
  destruct (valueErrorMap s !! value); [done|]. by apply lookup_insert_ne.
Qed.

Lemma memoize_other value ret s u :
  u ≠ value ∨ value = nullValue →
  valueErrorMap (memoize value ret s) !! u = valueErrorMap s !! u.
Proof.
  intros Hu. unfold memoize.
  destruct (decide (value = nullValue)) as [|Hnn]; [done|].
  destruct Hu as [Hu|]; [|done]. by apply lookup_insert_ne.
Qed.

Lemma readErrorArray_frame a s :
  valueErrorMap (readErrorArray a s).2 = valueErrorMap s
  ∧ storedError (readErrorArray a s).2 = storedError s
  ∧ ∃ new, errorArrayCache (readErrorArray a s).2 = errorArrayCache s ++ new.
Proof.
  unfold readErrorArray, subscript.
  destruct (arrayErrorArrayMap s !! a) as [[E|]|]; simpl;
    (split; [done|]); (split; [done|]).
  - exists []. by rewrite app_nil_r.
  - by eexists.
  - by eexists.
Qed.

Lemma getError_effect valueExpr :
  ∀ value s ret s',
    getError valueExpr value s = inr (ret, s') →
    storedError s' = storedError s
    ∧ (∀ u, u ≠ value ∨ value = nullValue →
            valueErrorMap s' !! u = valueErrorMap s !! u)
    ∧ ∃ new, errorArrayCache s' = errorArrayCache s ++ new.
Proof.
  assert (Hstep : ∀ value s s1 ret,
    storedError s1 = storedError (cachedError value s).2
    ∧ (∀ u, valueErrorMap s1 !! u = valueErrorMap (cachedError value s).2 !! u)
    ∧ (∃ new, errorArrayCache s1 = errorArrayCache (cachedError value s).2 ++ new) →
    storedError (memoize value ret s1) = storedError s
    ∧ (∀ u, u ≠ value ∨ value = nullValue →
            valueErrorMap (memoize value ret s1) !! u = valueErrorMap s !! u)
    ∧ ∃ new, errorArrayCache (memoize value ret s1) = errorArrayCache s ++ new).
  { intros value s s1 ret (Hst & Hv & Hc).
    destruct (cachedError_frame value s) as (_ & Hc0 & Hs0).
    destruct (memoize_frame value ret s1) as (_ & -> & ->).
    split; [congruence|]. split; [|by rewrite <- Hc0].
    intros u Hu. by rewrite memoize_other, Hv, cachedError_other. }
  assert (Hnullmap : ∀ s1 s2,
    (∀ u, u ≠ nullValue ∨ nullValue = nullValue →
          valueErrorMap s2 !! u = valueErrorMap s1 !! u) →
    ∀ u, valueErrorMap s2 !! u = valueErrorMap s1 !! u).
  { intros s1 s2 H u. apply H. by right. }
  induction valueExpr as
    [v w|a index _|lhs _ rhs _|kid IH w|kid _ w|k0 IH0 k1 IH1| | | | |];
    intros value s ret s'; rewrite getError_unfold;
    pose proof (cachedError_frame value s) as (_ & Hc0 & Hs0);
    pose proof (cachedError_other value s) as Hv0;
    pose proof (Hstep value s) as Hstep';
    destruct (cachedError value s) as [[cached|] s0]; simpl in *;
    try (intros [= <- <-]; split; [done|]; split; [done|];
         exists []; by rewrite app_nil_r);
    try discriminate.
  - intros [= <- <-]. apply Hstep'. split; [done|]. split; [done|].
    exists []. by rewrite app_nil_r.
  - destruct (readErrorArray_frame a s0) as (Hv & Hst & Hc).
    destruct (readErrorArray a s0) as [r s1]. simpl in *.
    intros [= <- <-]. apply Hstep'. by rewrite Hv.
  - destruct lhs; try discriminate.
    destruct (readErrorArray_frame root s0) as (Hv & Hst & Hc).
    destruct (readErrorArray root s0) as [r s1]. simpl in *.
    intros [= <- <-]. apply Hstep'. by rewrite Hv.
  - destruct (getError kid nullValue s0) as [|[r s1]] eqn:Hk; [discriminate|].
    destruct (IH _ _ _ _ Hk) as (Hst & Hv & Hc).
    intros [= <- <-]. apply Hstep'. split; [done|]. split; [|done].
    by apply Hnullmap.
  - destruct (getError k0 nullValue s0) as [|[r0 s1]] eqn:Hk0; [discriminate|].
    simpl.
    destruct (getError k1 nullValue s1) as [|[r1 s2]] eqn:Hk1; [discriminate|].
    destruct (IH0 _ _ _ _ Hk0) as (Hst0 & Hv0' & new0 & Hc0').
    destruct (IH1 _ _ _ _ Hk1) as (Hst1 & Hv1 & new1 & Hc1).
    intros [= <- <-]. apply Hstep'. split; [congruence|]. split.
    + intros u. by rewrite (Hnullmap _ _ Hv1), (Hnullmap _ _ Hv0').
    + exists (new0 ++ new1). by rewrite Hc1, Hc0', app_assoc.
Qed.

(** X3: what [getError] leaves alone.  A call that returns changes no
    stored error, changes the cached error of no value but the one it is
    called for (of none at all when called for the null value), only adds
    to the arrays created, and keeps every association of an array with its
    error array. *)
Theorem getError_frame valueExpr value s ret s' :
  getError valueExpr value s = inr (ret, s') →
  storedError s' = storedError s
  ∧ (∀ u, u ≠ value → valueErrorMap s' !! u = valueErrorMap s !! u)
  ∧ (value = nullValue → valueErrorMap s' = valueErrorMap s)
  ∧ (∃ new, errorArrayCache s' = errorArrayCache s ++ new)
  ∧ (∀ A E, arrayErrorArrayMap s !! A = Some (Some E) →
            arrayErrorArrayMap s' !! A = Some (Some E)).
Proof.
  intros Hget. destruct (getError_effect _ _ _ _ _ Hget) as (Hst & Hv & Hc).
  split; [done|]. split; [intros u Hu; apply Hv; by left|].
  split; [intros Hnull; apply map_eq; intros u; apply Hv; by right|].
  split; [done|].
  intros A E. by apply (getError_keeps_association valueExpr value s ret s').
Qed.

(** ** Propagation *)

Lemma propagateError_records instr result arguments s r s' :
  propagateError instr result arguments s = inr (r, s') →
  valueErrorMap s' !! instAddr instr = Some r.
Proof.
  unfold propagateError.
  destruct (getOpcode instr);
    try (destruct (operandErrors instr arguments s)
           as [|[[[[eL a0] eR] a1] s2]]; [discriminate|];
         intros [= <- <-]; apply recordError_lookup).
  destruct (firstTracked _ _ _ _) as [|e]; [discriminate|].
  intros [= <- <-]. apply recordError_lookup.
Qed.

(** X5: propagation feeds later operands.  The error [propagateError]
    returns for an instruction is the error every later [getError] returns
    for that instruction as a value, whatever expression it is given, with
    the ledger left as it is. *)
Theorem propagated_error_is_reused instr result arguments s r s' :
  instAddr instr ≠ nullValue →
  propagateError instr result arguments s = inr (Some r, s') →
  ∀ valueExpr, getError valueExpr (instAddr instr) s' = inr (r, s').
Proof.
  intros Hnn Hp valueExpr. apply getError_resolved; [done|].
  by apply (propagateError_records instr result arguments s).
Qed.

(** X7: the normalisation of the [Add] case.  When the result of an [Add]
    is a nonzero constant, [propagateError] returns, and stores for the
    instruction, the quotient by the result of the weighted sum
    [lError·arg0 + rError·arg1], each error aligned to the width of its
    operand. *)
Theorem sum_error_is_normalised instr ce w arguments s arg0 lError arg1 rError s2 :
  getOpcode instr = OpAdd →
  ce ≠ 0 →
  operandsDerive instr arguments s arg0 lError arg1 rError s2 →
  let normalised :=
    UDivExpr_create
      (weightedSum (extended lError arg0) arg0 (extended rError arg1) arg1)
      (Constant ce w) in
  ∃ s3,
    propagateError instr (Constant ce w) arguments s = inr (Some normalised, s3)
    ∧ valueErrorMap s3 !! instAddr instr = Some (Some normalised).
Proof.
  intros Hop Hce Hd normalised.
  pose proof (propagateError_Add instr (Constant ce w) arguments s
                arg0 lError arg1 rError s2 Hop Hd) as Hadd.
  cbn [nonzeroConstant] in Hadd. rewrite bool_decide_eq_true_2 in Hadd by done.
  eexists. split; [exact Hadd|]. apply recordError_lookup.
Qed.

Lemma firstTracked_none instr s error indices :
  (∀ j, j ∈ indices →
        ∃ u, operands instr !! j = Some u ∧ valueErrorMap s !! u = None) →
  firstTracked instr s indices error = inr error.
Proof.
  induction indices as [|i indices IH]; intros Hall; [done|].
  destruct (Hall i) as (u & Hu & Hnone); [by left|].
  simpl. unfold getOperand. rewrite Hu. simpl. rewrite Hnone.
  apply IH. intros j Hj. apply Hall. by right.
Qed.

Lemma firstTracked_first instr s error before i after v r :
  (∀ j, j ∈ before →
        ∃ u, operands instr !! j = Some u ∧ valueErrorMap s !! u = None) →
  operands instr !! i = Some v → valueErrorMap s !! v = Some r →
  firstTracked instr s (before ++ i :: after) error = inr r.
Proof.
  induction before as [|b before IH]; intros Hall Hi Hv.
  - simpl. unfold getOperand. rewrite Hi. simpl. by rewrite Hv.
  - destruct (Hall b) as (u & Hu & Hnone); [by left|].
    simpl. unfold getOperand. rewrite Hu. simpl. rewrite Hnone.
    apply IH; [|done|done]. intros j Hj. apply Hall. by right.
Qed.

(** X6: the default case.  For an instruction of any other opcode,
    [propagateError] forwards the entry of the first operand, among those
    that have an argument, that has an entry in [valueErrorMap] (the entry
    as it is, be it null), and the zero constant of eight bits when none
    has; it records what it returns for the instruction and changes nothing
    else: it derives no error and creates no error array. *)
Theorem default_forwards_first_tracked instr code result arguments s :
  getOpcode instr = OpOther code →
  (∀ k v r,
      (k < length arguments)%nat →
      operands instr !! k = Some v →
      valueErrorMap s !! v = Some r →
      (∀ j, (j < k)%nat →
            ∃ u, operands instr !! j = Some u ∧ valueErrorMap s !! u = None) →
      propagateError instr result arguments s
      = inr (r, recordError instr r s))
  ∧ ((∀ j, (j < length arguments)%nat →
           ∃ u, operands instr !! j = Some u ∧ valueErrorMap s !! u = None) →
     propagateError instr result arguments s
     = inr (Some (Constant 0 8), recordError instr (Some (Constant 0 8)) s)).
Proof.
  intros Hop. unfold propagateError. rewrite Hop. split.
  - intros k v r Hk Hv Hr Hbefore.
    replace (seq 0 (length arguments))
      with (seq 0 k ++ k :: seq (S k) (length arguments - S k)).
    + rewrite (firstTracked_first instr s _ (seq 0 k) k _ v r); [done| |done|done].
      intros j Hj. apply Hbefore. apply list_elem_of_In, in_seq in Hj. lia.
    + replace (length arguments) with (k + S (length arguments - S k))%nat at 2 by lia.
      by rewrite seq_app.
  - intros Hall. rewrite firstTracked_none; [done|].
    intros j Hj. apply Hall. apply list_elem_of_In, in_seq in Hj. lia.
Qed.

(** ** The shadow store *)

(** X8: stores and loads at concrete addresses.  After a store at the
    address [a], a load at the address [b] returns the error stored when
    that error is not null and [a = b], and otherwise what a load at [b]
    returned before the store: the last store at an address wins, a store
    at another address changes nothing, and the store of a null error does
    not clear the error stored before. *)
Theorem load_after_store a w b w' error value s :
  ∃ s1 s2,
    executeStore (Constant a w) error s = inr s1
    ∧ executeLoad value (Constant b w') s1
      = inr (match error with
             | Some e => if decide (a = b) then e else storedAt b s
             | None => storedAt b s
             end, s2).
Proof.
  unfold storedAt. destruct error as [e|]; [case_decide as Hab|].
  - subst b. eexists _, _. split; [apply executeStore_constant|].
    rewrite executeLoad_constant. cbn [set_storedError storedError].
    by rewrite lookup_insert_eq.
  - eexists _, _. split; [apply executeStore_constant|].
    rewrite executeLoad_constant. cbn [set_storedError storedError].
    by rewrite lookup_insert_ne.
  - eexists _, _. split; [reflexivity|]. by rewrite executeLoad_constant.
Qed.

(** X9: a load overrides the cached error.  After [executeLoad] for a
    non-null value has returned, every later [getError] for that value
    returns the error loaded, whatever error was cached for the value
    before and whatever expression is given; the load itself changes
    neither the store nor the error arrays. *)
Theorem loaded_error_is_reused value address s error s' :
  value ≠ nullValue →
  executeLoad value address s = inr (error, s') →
  (∀ valueExpr, getError valueExpr value s' = inr (error, s'))
  ∧ storedError s' = storedError s
  ∧ arrayErrorArrayMap s' = arrayErrorArrayMap s
  ∧ errorArrayCache s' = errorArrayCache s.
Proof.
  intros Hnn. destruct address as [cp w| | | | | | | | | |]; try discriminate.
  rewrite executeLoad_constant. intros [= <- <-]. split; [|done].
  intros valueExpr. apply getError_resolved; [done|]. apply lookup_insert_eq.
Qed.

End LedgerFurther.

(** * Properties of call sequences and of the report *)

Section CallSequences.
Context {builder : ExprBuilder} {host : Host}.
Import SymbolicError.

Implicit Types (s : State) (st : Report.State).

(** ** The error arrays stay consistent *)

Lemma consistent_initial : errorArraysConsistent initial.
Proof.
  unfold errorArraysConsistent. simpl. split; [|split].
  - intros A E. by rewrite lookup_empty.
  - intros E. split.
    + intros Hin. by apply elem_of_nil in Hin.
    + intros (A & HA). by rewrite lookup_empty in HA.
  - by rewrite map_size_empty.
Qed.

Lemma consistent_same_arrays s s' :
  arrayErrorArrayMap s' = arrayErrorArrayMap s →
  errorArrayCache s' = errorArrayCache s →
  errorArraysConsistent s → errorArraysConsistent s'.
Proof. unfold errorArraysConsistent. by intros -> ->. Qed.

Lemma readErrorArray_consistent a s :
  errorArraysConsistent s → errorArraysConsistent (readErrorArray a s).2.
Proof.
  intros (Hname & Hcache & Hsize).
  destruct (arrayErrorArrayMap s !! a) as [[E|]|] eqn:Ha.
  - by rewrite (readErrorArray_reuse a E s Ha).
  - by specialize (Hname a None Ha).
  - destruct (readErrorArray_create a s) as (s1 & -> & Hm & Hc & _); [by left|].
    simpl. split; [|split].
    + intros A E. rewrite Hm. intros HA.
      destruct (decide (a = A)) as [->|Hne].
      * rewrite lookup_insert_eq in HA. congruence.
      * rewrite lookup_insert_ne in HA by done. by apply Hname.
    + intros E. rewrite Hc, Hm, elem_of_app, list_elem_of_singleton, Hcache. split.
      * intros [(A & HA) | ->].
        -- exists A. rewrite lookup_insert_ne; [done|]. congruence.
        -- exists a. by rewrite lookup_insert_eq.
      * intros (A & HA). destruct (decide (a = A)) as [->|Hne].
        -- rewrite lookup_insert_eq in HA. right. congruence.
        -- rewrite lookup_insert_ne in HA by done. left. by exists A.
    + rewrite Hc, Hm, length_app, map_size_insert_None by done. simpl. lia.
Qed.

Lemma getError_consistent valueExpr :
  ∀ value s ret s',
    getError valueExpr value s = inr (ret, s') →
    errorArraysConsistent s → errorArraysConsistent s'.
Proof.
  assert (Hmemo : ∀ value ret s1,
            errorArraysConsistent s1 → errorArraysConsistent (memoize value ret s1)).
  { intros value ret s1. destruct (memoize_frame value ret s1) as (Hm & Hc & _).
    by apply consistent_same_arrays. }
  induction valueExpr as
    [v w|a index _|lhs _ rhs _|kid IH w|kid _ w|k0 IH0 k1 IH1| | | | |];
    intros value s ret s'; rewrite getError_unfold;
    pose proof (cachedError_frame value s) as (Hm0 & Hc0 & _);
    destruct (cachedError value s) as [[cached|] s0]; simpl in Hm0, Hc0;
    cbn [deriveError];
    try (intros [= <- <-]; by apply consistent_same_arrays);
    try discriminate;
    intros Hget Hcons;
    assert (Hcons0 : errorArraysConsistent s0)
      by (by apply (consistent_same_arrays s)).
  - injection Hget as <- <-. by apply Hmemo.
  - pose proof (readErrorArray_consistent a s0 Hcons0) as Hr.
    destruct (readErrorArray a s0) as [r s1]. injection Hget as <- <-.
    by apply Hmemo.
  - destruct lhs; try discriminate.
    pose proof (readErrorArray_consistent root s0 Hcons0) as Hr.
    destruct (readErrorArray root s0) as [r s1]. injection Hget as <- <-.
    by apply Hmemo.
  - destruct (getError kid nullValue s0) as [|[r s1]] eqn:Hk; [discriminate|].
    injection Hget as <- <-. apply Hmemo. eauto.
  - destruct (getError k0 nullValue s0) as [|[r0 s1]] eqn:Hk0; [discriminate|].
    simpl in Hget.
    destruct (getError k1 nullValue s1) as [|[r1 s2]] eqn:Hk1; [discriminate|].
    injection Hget as <- <-. apply Hmemo. eauto.
Qed.

Lemma operandErrors_consistent instr arguments s eL a0 eR a1 s2 :
  operandErrors instr arguments s = inr (eL, a0, eR, a1, s2) →
  errorArraysConsistent s → errorArraysConsistent s2.
Proof.
  unfold operandErrors.
  destruct (getOperand instr 0) as [|lOp]; [discriminate|].
  destruct (getOperand instr 1) as [|rOp]; [discriminate|].
  destruct (argument arguments 0) as [|arg0]; [discriminate|]. simpl.
  destruct (getError arg0 lOp s) as [|[lError s1]] eqn:Hl; [discriminate|].
  destruct (argument arguments 1) as [|arg1]; [discriminate|]. simpl.
  destruct (getError arg1 rOp s1) as [|[rError s2']] eqn:Hr; [discriminate|].
  intros [= _ _ _ _ <-] Hcons.
  eapply getError_consistent; [exact Hr|].
  eapply getError_consistent; [exact Hl|done].
Qed.

Lemma propagateError_consistent instr result arguments s r s' :
  propagateError instr result arguments s = inr (r, s') →
  errorArraysConsistent s → errorArraysConsistent s'.
Proof.
  unfold propagateError.
  destruct (getOpcode instr);
    try (destruct (operandErrors instr arguments s)
           as [|[[[[eL a0] eR] a1] s2]] eqn:Hops; [discriminate|];
         intros [= _ <-] Hcons;
         apply (consistent_same_arrays s2); [done|done|];
         by apply (operandErrors_consistent _ _ _ _ _ _ _ _ Hops)).
  destruct (firstTracked _ _ _ _) as [|e]; [discriminate|].
  intros [= _ <-]. by apply consistent_same_arrays.
Qed.

Lemma outputErrorBound_ledger inst bound st st' :
  Report.outputErrorBound inst bound st = inr st' →
  arrayErrorArrayMap (Report.ledger st') = arrayErrorArrayMap (Report.ledger st)
  ∧ errorArrayCache (Report.ledger st') = errorArrayCache (Report.ledger st)
  ∧ storedError (Report.ledger st') = storedError (Report.ledger st).
Proof.
  unfold Report.outputErrorBound.
  destruct (getOperand _ 0) as [|operand0]; [discriminate|]. simpl.
  destruct (subscript _ _) as [e m]. by intros [= <-].
Qed.

Lemma perform_consistent c st st' :
  perform c st = inr st' →
  errorArraysConsistent (Report.ledger st) →
  errorArraysConsistent (Report.ledger st').
Proof.
  destruct c as [valueExpr value|instr result arguments|address error
                |value address|inst bound]; simpl.
  - destruct (getError valueExpr value _) as [|[r s1]] eqn:Hg; [discriminate|].
    intros [= <-]. simpl. by apply (getError_consistent _ _ _ _ _ Hg).
  - destruct (propagateError instr result arguments _) as [|[r s1]] eqn:Hp;
      [discriminate|].
    intros [= <-]. simpl. by apply (propagateError_consistent _ _ _ _ _ _ Hp).
  - destruct error as [e|]; simpl.
    + destruct address; try discriminate. intros [= <-]. simpl.
      by apply consistent_same_arrays.
    + by intros [= <-].
  - destruct address as [cp w| | | | | | | | | |]; try discriminate.
    rewrite executeLoad_constant. intros [= <-]. simpl.
    by apply consistent_same_arrays.
  - intros Hout. destruct (outputErrorBound_ledger _ _ _ _ Hout) as (Hm & Hc & _).
    by apply consistent_same_arrays.
Qed.

(** X4: the error arrays of the ledger stay consistent over every sequence
    of calls.  Starting from the empty ledger, after any calls of
    [getError], [propagateError], [executeStore], [executeLoad] and
    [outputErrorBound] that return, every array with an entry in
    [arrayErrorArrayMap] has the error array named
    ["_unspecified_error_" ++ name] (never a null one), the arrays created
    are exactly the error arrays in the map, and as many arrays were created
    as the map has entries: no array was created twice for the same
    array. *)
Theorem error_arrays_stay_consistent (cs : list LedgerCall) st' :
  performAll cs Report.initial = inr st' →
  errorArraysConsistent (Report.ledger st').
Proof.
  assert (Hgen : ∀ st, performAll cs st = inr st' →
                       errorArraysConsistent (Report.ledger st) →
                       errorArraysConsistent (Report.ledger st')).
  { induction cs as [|c cs IH]; intros st; simpl.
    - by intros [= <-].
    - destruct (perform c st) as [|st1] eqn:Hc; [discriminate|]. simpl.
      intros Hrest Hcons. apply (IH st1 Hrest).
      by apply (perform_consistent c st). }
  intros Hrun. apply (Hgen Report.initial Hrun). apply consistent_initial.
Qed.

(** ** The report *)

Lemma string_app_assoc (a b c : string) : (a +:+ b) +:+ c = a +:+ b +:+ c.
Proof.
  induction a as [|ch a IH]; [reflexivity|].
  change (String ch ((a +:+ b) +:+ c) = String ch (a +:+ b +:+ c)). by f_equal.
Qed.

Lemma string_app_empty_r (a : string) : a +:+ "" = a.
Proof.
  induction a as [|ch a IH]; [reflexivity|].
  change (String ch (a +:+ "") = String ch a). by f_equal.
Qed.

Lemma string_app_empty_l (a : string) : "" +:+ a = a.
Proof. reflexivity. Qed.

(** The text one call of [outputErrorBound] adds: the entry, after the
    divider when the report is not empty; the entry does not depend on the
    report so far. *)
Lemma outputErrorBound_text inst bound s :
  (∃ f, Report.outputErrorBound inst bound (Report.mkState s "") = inl f
        ∧ ∀ text, Report.outputErrorBound inst bound (Report.mkState s text) = inl f)
  ∨ (∃ s' entry,
       ∀ text,
         Report.outputErrorBound inst bound (Report.mkState s text)
         = inr (Report.mkState s'
                  (if decide (text = "") then entry
                   else text +:+ newline +:+ "------------------------"
                             +:+ newline +:+ entry))).
Proof.
  unfold Report.outputErrorBound. cbn [Report.ledger Report.outputString].
  destruct (getOperand _ 0) as [f|operand0]; [left; by exists f|]. right. simpl.
  destruct (subscript _ _) as [e m].
  destruct (dbg inst) as [loc|]; destruct (functionName inst) as [func|];
    eexists _, _; intros text; f_equal; f_equal;
    (destruct (decide (text = "")) as [->|Hne];
     [rewrite ?string_app_empty_l, ?string_app_assoc; reflexivity
     |rewrite ?string_app_assoc; reflexivity]).
Qed.

(** X11: the report is append-only.  Over any sequence of calls that
    returns, the report so far is a prefix of the report at the end; only
    [outputErrorBound] writes to it; and a call of [outputErrorBound] adds
    its entry after the divider line exactly when the report is not empty,
    the entry being the same whatever the report holds. *)
Theorem report_is_append_only :
  (∀ cs st st',
      performAll cs st = inr st' →
      ∃ suffix, Report.outputString st' = Report.outputString st +:+ suffix)
  ∧ (∀ c st st',
      perform c st = inr st' →
      (∀ inst bound, c ≠ CallOutputErrorBound inst bound) →
      Report.outputString st' = Report.outputString st)
  ∧ (∀ inst bound s text st',
      Report.outputErrorBound inst bound (Report.mkState s text) = inr st' →
      ∃ entry,
        ∀ text',
          Report.outputErrorBound inst bound (Report.mkState s text')
          = inr (Report.mkState (Report.ledger st')
                   (if decide (text' = "") then entry
                    else text' +:+ newline +:+ "------------------------"
                               +:+ newline +:+ entry))).
Proof.
  assert (Hother : ∀ c st st',
            perform c st = inr st' →
            (∀ inst bound, c ≠ CallOutputErrorBound inst bound) →
            Report.outputString st' = Report.outputString st).
  { intros c st st' Hc Hnot.
    destruct c as [valueExpr value|instr result arguments|address error
                  |value address|inst bound]; simpl in Hc.
    - destruct (getError valueExpr value _) as [|[r s1]]; [discriminate|].
      by injection Hc as <-.
    - destruct (propagateError instr result arguments _) as [|[r s1]];
        [discriminate|].
      by injection Hc as <-.
    - destruct (executeStore address error _) as [|s1]; [discriminate|].
      by injection Hc as <-.
    - destruct (executeLoad value address _) as [|[r s1]]; [discriminate|].
      by injection Hc as <-.
    - by destruct (Hnot inst bound). }
  assert (Hout : ∀ inst bound s text st',
            Report.outputErrorBound inst bound (Report.mkState s text) = inr st' →
            ∃ entry,
              ∀ text',
                Report.outputErrorBound inst bound (Report.mkState s text')
                = inr (Report.mkState (Report.ledger st')
                         (if decide (text' = "") then entry
                          else text' +:+ newline +:+ "------------------------"
                                     +:+ newline +:+ entry))).
  { intros inst bound s text st' Hrun.
    destruct (outputErrorBound_text inst bound s)
      as [(f & _ & Hf) | (s' & entry & Hentry)].
    - rewrite Hf in Hrun. discriminate.
    - rewrite Hentry in Hrun. injection Hrun as <-. by exists entry. }
  split; [|split; [exact Hother | exact Hout]].
  induction cs as [|c cs IH]; intros st st'; simpl.
  - intros [= <-]. exists "". by rewrite string_app_empty_r.
  - destruct (perform c st) as [|st1] eqn:Hc; [discriminate|]. simpl.
    intros Hrest. destruct (IH st1 st' Hrest) as (suffix & ->).
    destruct c as [valueExpr value|instr result arguments|address error
                  |value address|inst bound];
      try (rewrite (Hother _ _ _ Hc) by discriminate; by exists suffix).
    simpl in Hc. destruct st as [s text].
    destruct (Hout inst bound s text st1 Hc) as (entry & Hentry).
    rewrite Hentry in Hc. injection Hc as <-. simpl.
    destruct (decide (text = "")) as [->|Hne].
    + exists (entry +:+ suffix). reflexivity.
    + eexists. rewrite !string_app_assoc. reflexivity.
Qed.

(** X10: [outputErrorBound] on an untracked operand leaves a null entry.
    When operand 0 of the instruction is an instruction with no entry in
    [valueErrorMap], the call gives it a null entry and changes nothing
    else in the ledger.  From then on the default case of [propagateError]
    on an instruction whose first operand is that value forwards the null
    entry: it returns, and records, a null error, where it returned the zero
    constant before the call when no operand was tracked. *)
Theorem bound_output_leaves_null_entry inst bound st st' v :
  operands (siteInstruction inst) !! 0%nat = Some v →
  isInstruction v = true →
  valueErrorMap (Report.ledger st) !! v = None →
  Report.outputErrorBound inst bound st = inr st' →
  valueErrorMap (Report.ledger st') = <[v := None]> (valueErrorMap (Report.ledger st))
  ∧ arrayErrorArrayMap (Report.ledger st') = arrayErrorArrayMap (Report.ledger st)
  ∧ storedError (Report.ledger st') = storedError (Report.ledger st)
  ∧ errorArrayCache (Report.ledger st') = errorArrayCache (Report.ledger st)
  ∧ ∀ instr code result arg arguments,
      getOpcode instr = OpOther code →
      operands instr !! 0%nat = Some v →
      propagateError instr result (arg :: arguments) (Report.ledger st')
      = inr (None, recordError instr None (Report.ledger st'))
      ∧ (operands instr = [v] → arguments = [] →
         propagateError instr result (arg :: arguments) (Report.ledger st)
         = inr (Some (Constant 0 8),
                recordError instr (Some (Constant 0 8)) (Report.ledger st))).
Proof.
  intros Hop Hinst Hnone. unfold Report.outputErrorBound, getOperand.
  rewrite Hop. simpl. rewrite Hinst. unfold subscript. rewrite Hnone.
  intros [= <-]. simpl. repeat (split; [done|]).
  intros instr code result arg arguments Hcode Hv. split.
  - unfold propagateError. rewrite Hcode. simpl. unfold getOperand.
    rewrite Hv. simpl. by rewrite lookup_insert_eq.
  - intros Hops ->. unfold propagateError. rewrite Hcode. simpl.
    unfold getOperand. rewrite Hv. simpl. by rewrite Hnone.
Qed.

End CallSequences.

(** * Further properties of the solver *)

Section SolverFurther.
Context {backend : Z3Backend}.
Import Z3ErrorSolverImpl.

(** ** Decoding *)

Lemma fromLittleEndian_littleEndianBytes n : ∀ v,
  fromLittleEndian (littleEndianBytes n v) = v mod 256 ^ Z.of_nat n.
Proof.
  induction n as [|n IH]; intros v.
  - simpl. by rewrite Z.mod_1_r.
  - rewrite littleEndianBytes_S. cbn [fromLittleEndian foldr].
    fold (fromLittleEndian (littleEndianBytes n (v / 256))). rewrite IH.
    rewrite Nat2Z.inj_succ, Z.pow_succ_r by lia.
    assert (0 < 256 ^ Z.of_nat n) by (apply Z.pow_pos_nonneg; lia).
    by rewrite Z.rem_mul_r by lia.
Qed.

Lemma littleEndianBytes_range n v :
  Forall (λ b, 0 ≤ b < 256) (littleEndianBytes n v).
Proof.
  unfold littleEndianBytes. apply Forall_forall. intros b Hb.
  apply list_elem_of_In, in_map_iff in Hb as (i & <- & _).
  apply Z.mod_pos_bound. lia.
Qed.

Lemma decodeData_not_decodable a :
  ¬ decodable a →
  decodeData a = inl (AssertionFailed "failed to get value back").
Proof.
  intros Hnot. destruct a as [| | | |num den|]; try reflexivity.
  unfold decodeData, Z3_get_numeral_int, Z3_get_numerator, Z3_get_denominator.
  assert (Hcase : ¬ (INT_MIN ≤ num ≤ INT_MAX) ∨ ¬ (INT_MIN ≤ Z.pos den ≤ INT_MAX)).
  { destruct (decide (INT_MIN ≤ num ≤ INT_MAX)) as [Hn|]; [|by left].
    destruct (decide (INT_MIN ≤ Z.pos den ≤ INT_MAX)) as [Hd|]; [|by right].
    destruct Hnot. exists num, den. split; [done|]. split; [done|]. lia. }
  destruct Hcase as [Hn|Hd].
  - destruct den; repeat case_decide; done.
  - assert (den ≠ 1%positive) by (intros ->; apply Hd; unfold INT_MIN, INT_MAX; lia).
    destruct den; repeat case_decide; done.
Qed.

Lemma decodeUpperBound_not_decodable a :
  ¬ decodable a →
  decodeUpperBound a = inl (AssertionFailed "failed to get value back").
Proof.
  intros Hnot. destruct a as [| | | |num den|]; try reflexivity.
  unfold decodeUpperBound, Z3_get_numeral_int, Z3_get_numerator, Z3_get_denominator.
  assert (Hcase : ¬ (INT_MIN ≤ num ≤ INT_MAX) ∨ ¬ (INT_MIN ≤ Z.pos den ≤ INT_MAX)).
  { destruct (decide (INT_MIN ≤ num ≤ INT_MAX)) as [Hn|]; [|by left].
    destruct (decide (INT_MIN ≤ Z.pos den ≤ INT_MAX)) as [Hd|]; [|by right].
    destruct Hnot. exists num, den. split; [done|]. split; [done|]. lia. }
  destruct Hcase as [Hn|Hd].
  - destruct den; repeat case_decide; done.
  - assert (den ≠ 1%positive) by (intros ->; apply Hd; unfold INT_MIN, INT_MAX; lia).
    destruct den; repeat case_decide; done.
Qed.

Lemma decodable_dec a : decodable a ∨ ¬ decodable a.
Proof.
  destruct a as [| | | |num den|];
    try (right; intros (n & d & Heq & _); discriminate).
  destruct (decide (INT_MIN ≤ num ≤ INT_MAX ∧ Z.pos den ≤ INT_MAX)) as [[Hn Hd]|Hno].
  - left. by exists num, den.
  - right. intros (n & d & [= <- <-] & Hn & Hd). by apply Hno.
Qed.

(** X15: which values the decoders accept.  Both numeral decoders return
    exactly on the numerals whose numerator and denominator fit an [int];
    on every other value (an integer beyond the [int] range, a fraction
    with such a part, a term that is no numeral) they stop at the assertion
    "failed to get value back". *)
Theorem decoders_accept_int_sized_numerals a :
  ((∃ data, decodeData a = inr data) ↔ decodable a)
  ∧ ((∃ result, decodeUpperBound a = inr result) ↔ decodable a)
  ∧ (¬ decodable a →
     decodeData a = inl (AssertionFailed "failed to get value back")
     ∧ decodeUpperBound a = inl (AssertionFailed "failed to get value back")).
Proof.
  split; [|split].
  - split.
    + intros (data & Hdata). destruct (decodable_dec a) as [|Hnot]; [done|].
      rewrite (decodeData_not_decodable a Hnot) in Hdata. discriminate.
    + intros Hdec. destruct (decodeData_decodable a Hdec) as (data & Hdata & _).
      by exists data.
  - split.
    + intros (result & Hres). destruct (decodable_dec a) as [|Hnot]; [done|].
      rewrite (decodeUpperBound_not_decodable a Hnot) in Hres. discriminate.
    + apply decodeUpperBound_decodable.
  - intros Hnot. split.
    + by apply decodeData_not_decodable.
    + by apply decodeUpperBound_not_decodable.
Qed.

(** X16: the buffer reads back.  Whenever the numeral decoding of
    [handleSolverResponse] returns, its buffer has eight bytes, each from 0
    to 255, and read least significant byte first it denotes, for an integer
    numeral, the integer modulo [2 ^ 64] (the integer itself when it is not
    negative, its two's complement on 64 bits otherwise), and for a fraction
    the 64-bit pattern of the double quotient. *)
Theorem decoded_buffer_reads_back a data :
  decodeData a = inr data →
  length data = 8%nat
  ∧ Forall (λ b, 0 ≤ b < 256) data
  ∧ match Z3_get_numeral_int a with
    | Some v => fromLittleEndian data = v mod 2 ^ 64
    | None =>
        ∃ num den,
          a = Z3_numeral num den
          ∧ fromLittleEndian data
            = double_bits (double_div (double_of_int num) (double_of_int (Z.pos den)))
              mod 2 ^ 64
    end.
Proof.
  intros Hdata. destruct (decodable_dec a) as [(num & den & -> & Hn & Hd)|Hnot].
  - destruct (decide (den = 1%positive)) as [->|Hne].
    + rewrite decodeData_integer in Hdata by done. injection Hdata as <-.
      rewrite (Z3_get_numeral_int_fits num Hn).
      split; [done|]. split; [apply littleEndianBytes_range|].
      by rewrite (fromLittleEndian_littleEndianBytes 8).
    + rewrite decodeData_rational in Hdata by done. injection Hdata as <-.
      rewrite (Z3_get_numeral_int_fraction num den Hne).
      split; [done|]. split; [apply littleEndianBytes_range|].
      exists num, den. split; [done|]. unfold doubleBytes.
      by rewrite (fromLittleEndian_littleEndianBytes 8).
  - rewrite (decodeData_not_decodable a Hnot) in Hdata. discriminate.
Qed.

(** ** Queries *)

(** The satisfiability query, with the calls on the session and the
    counters of the query written out. *)
Lemma internalRunSolver_unfold query objects vals hs st :
  internalRunSolver query objects vals hs st
  = let theSolver := ctx st ++ solverSession (solverParameters st) query in
    let counted :=
      if objects is Some _ then inc_queryCounterexamples (inc_queries (stats st))
      else inc_queries (stats st) in
    '(status, vals, hs) ←
      handleSolverResponse theSolver (Z3_check theSolver) objects vals hs;
    let '(success, st) :=
      conclude hs (mkState status (solverParameters st) theSolver counted) in
    mret (success, vals, hs, st).
Proof.
  unfold internalRunSolver. cbv zeta. rewrite ctx_asserts.
  set (theSolver := ctx st ++ solverSession (solverParameters st) query).
  destruct objects;
    match goal with
    | |- context [call call_solver_check ?x] =>
        match goal with
        | |- context [conclude _ (mkState _ _ _ ?c)] =>
            assert (call call_solver_check x
                    = mkState SOLVER_RUN_STATUS_FAILURE (solverParameters st)
                        theSolver c) as ->
              by (subst theSolver; unfold solverSession, call, set_stats; cbn;
                  rewrite <- !app_assoc; reflexivity)
        end
    end; reflexivity.
Qed.

Lemma internalRunOptimize_unfold query arrays out st :
  internalRunOptimize query (Some arrays) out st
  = let theSolver := ctx st ++ optimizeSession (solverParameters st) query arrays in
    let counted := inc_queryCounterexamples (inc_queries (stats st)) in
    '(status, out) ←
      handleOptimizeResponse theSolver (Z3_check theSolver) (Some arrays) out;
    let '(success, st) :=
      conclude (hasSolution out)
        (mkState status (solverParameters st) theSolver counted) in
    mret (success, out, st).
Proof.
  unfold internalRunOptimize. cbv zeta. rewrite ctx_asserts, ctx_objectives.
  set (theSolver := ctx st ++ optimizeSession (solverParameters st) query arrays).
  match goal with
  | |- context [call call_optimize_check ?x] =>
      match goal with
      | |- context [conclude _ (mkState _ _ _ ?c)] =>
          assert (call call_optimize_check x
                  = mkState SOLVER_RUN_STATUS_FAILURE (solverParameters st)
                      theSolver c) as ->
            by (subst theSolver; unfold optimizeSession, call, set_stats; cbn;
                rewrite <- !app_assoc; reflexivity)
      end
  end; reflexivity.
Qed.

Lemma conclude_cases hs st :
  (runStatusCode st = SOLVER_RUN_STATUS_SUCCESS_SOLVABLE
   ∨ runStatusCode st = SOLVER_RUN_STATUS_SUCCESS_UNSOLVABLE) ∧
  conclude hs st
  = (true, set_stats (if hs then inc_queriesInvalid else inc_queriesValid) st)
  ∨ (runStatusCode st = SOLVER_RUN_STATUS_FAILURE
     ∨ runStatusCode st = SOLVER_RUN_STATUS_TIMEOUT) ∧
    conclude hs st = (false, st).
Proof.
  unfold conclude. case_decide as Hd; [by left|]. right. split; [|done].
  destruct (runStatusCode st); [destruct Hd; by left|destruct Hd; by right| |];
    [by left|by right].
Qed.

(** The counters after a query that ended in the status [status] with the
    flag [hs], from the counters [c] before it: [withObjects] tells whether
    an assignment was requested. *)
Lemma accounting_of status params theSolver c (withObjects hs ok : bool) st' :
  conclude hs
    (mkState status params theSolver
       (if withObjects then inc_queryCounterexamples (inc_queries c)
        else inc_queries c))
  = (ok, st') →
  runStatusCode st' = status
  ∧ solverParameters st' = params
  ∧ queries (stats st') = (queries c + 1)%N
  ∧ queryCounterexamples (stats st')
    = (queryCounterexamples c + if withObjects then 1 else 0)%N
  ∧ (ok = true ↔ status = SOLVER_RUN_STATUS_SUCCESS_SOLVABLE
                 ∨ status = SOLVER_RUN_STATUS_SUCCESS_UNSOLVABLE)
  ∧ queriesValid (stats st')
    = (queriesValid c + if ok && negb hs then 1 else 0)%N
  ∧ queriesInvalid (stats st')
    = (queriesInvalid c + if ok && hs then 1 else 0)%N.
Proof.
  match goal with |- conclude _ ?st0 = _ → _ => set (st0' := st0) end.
  destruct (conclude_cases hs st0') as [[Hs ->]|[Hs ->]]; intros [= <- <-];
    subst st0'; simpl in *.
  - destruct withObjects, hs; simpl; repeat split; try done; try lia; auto.
  - destruct withObjects, hs; simpl; repeat split; try done; try lia;
      try (intros [?|?]; destruct Hs; congruence).
Qed.

Lemma internalRunSolver_parameters query objects vals hs st ok vals' hs' st' :
  internalRunSolver query objects vals hs st = inr (ok, vals', hs', st') →
  solverParameters st' = solverParameters st.
Proof.
  rewrite internalRunSolver_unfold. cbv zeta.
  destruct (handleSolverResponse _ _ _ _ _) as [|[[status v1] h1]];
    [discriminate|].
  simpl. unfold conclude. case_decide; by intros [= _ _ _ <-].
Qed.

(** X12: the accounting of a query.  Every satisfiability or optimizing
    query that returns counts one query, and one counterexample query when
    an assignment is requested; it reports success exactly when it ended
    Solvable or Unsolvable, the status [getOperationStatusCode] then gives;
    a successful query counts as invalid when it has a solution and as valid
    when it has none, and a failed one counts as neither. *)
Theorem query_accounting query st :
  (∀ objects vals hs ok vals' hs' st',
      internalRunSolver query objects vals hs st = inr (ok, vals', hs', st') →
      queries (stats st') = (queries (stats st) + 1)%N
      ∧ queryCounterexamples (stats st')
        = (queryCounterexamples (stats st) + if objects is Some _ then 1 else 0)%N
      ∧ (ok = true ↔
           getOperationStatusCode st' = SOLVER_RUN_STATUS_SUCCESS_SOLVABLE
           ∨ getOperationStatusCode st' = SOLVER_RUN_STATUS_SUCCESS_UNSOLVABLE)
      ∧ queriesValid (stats st')
        = (queriesValid (stats st) + if ok && negb hs' then 1 else 0)%N
      ∧ queriesInvalid (stats st')
        = (queriesInvalid (stats st) + if ok && hs' then 1 else 0)%N
      ∧ solverParameters st' = solverParameters st)
  ∧ (∀ arrays out ok out' st',
      internalRunOptimize query (Some arrays) out st = inr (ok, out', st') →
      queries (stats st') = (queries (stats st) + 1)%N
      ∧ queryCounterexamples (stats st') = (queryCounterexamples (stats st) + 1)%N
      ∧ (ok = true ↔
           getOperationStatusCode st' = SOLVER_RUN_STATUS_SUCCESS_SOLVABLE
           ∨ getOperationStatusCode st' = SOLVER_RUN_STATUS_SUCCESS_UNSOLVABLE)
      ∧ queriesValid (stats st')
        = (queriesValid (stats st) + if ok && negb (hasSolution out') then 1 else 0)%N
      ∧ queriesInvalid (stats st')
        = (queriesInvalid (stats st) + if ok && hasSolution out' then 1 else 0)%N
      ∧ solverParameters st' = solverParameters st).
Proof.
  split.
  - intros objects vals hs ok vals' hs' st'. rewrite internalRunSolver_unfold.
    cbv zeta.
    destruct (handleSolverResponse _ _ _ _ _) as [|[[status v1] h1]];
      [discriminate|].
    simpl.
    match goal with
    | |- context [conclude ?h ?st0] => destruct (conclude h st0) as [b st1] eqn:Hc
    end.
    intros [= <- <- <- <-].
    assert (Hc' : conclude h1
              (mkState status (solverParameters st)
                 (ctx st ++ solverSession (solverParameters st) query)
                 (if (if objects is Some _ then true else false)
                  then inc_queryCounterexamples (inc_queries (stats st))
                  else inc_queries (stats st))) = (b, st1))
      by (by destruct objects).
    destruct (accounting_of _ _ _ _ _ _ _ _ Hc')
      as (Hst & Hp & Hq & Hqc & Hok & Hv & Hi).
    unfold getOperationStatusCode. rewrite Hst.
    repeat split; try done; try (by apply Hok).
    rewrite Hqc. by destruct objects.
  - intros arrays out ok out' st'. rewrite internalRunOptimize_unfold.
    cbv zeta.
    destruct (handleOptimizeResponse _ _ _ _) as [|[status out1]];
      [discriminate|].
    simpl.
    match goal with
    | |- context [conclude ?h ?st0] => destruct (conclude h st0) as [b st1] eqn:Hc
    end.
    intros [= <- <- <-].
    destruct (accounting_of status (solverParameters st) _ (stats st) true _ _ _ Hc)
      as (Hst & Hp & Hq & Hqc & Hok & Hv & Hi).
    unfold getOperationStatusCode. rewrite Hst.
    repeat split; try done; by apply Hok.
Qed.

(** X13: [computeTruth] reads the verdict off the check alone.  On the
    session of the query (the constraints, then the negated goal), an
    unsatisfiable check makes the query valid and a satisfiable one invalid,
    both reported as success and whatever model the backend would give: no
    model is requested.  When the backend gives up with one of the reasons
    it may give, [computeTruth] reports failure, and the validity it hands
    back is the negation of the flag as it was before the call. *)
Theorem computeTruth_verdict query hs st :
  let theSolver := ctx st ++ solverSession (solverParameters st) query in
  (Z3_check theSolver = Z3_L_FALSE →
   ∃ st', computeTruth query hs st = inr (true, true, st')
          ∧ getOperationStatusCode st' = SOLVER_RUN_STATUS_SUCCESS_UNSOLVABLE)
  ∧ (Z3_check theSolver = Z3_L_TRUE →
     ∃ st', computeTruth query hs st = inr (true, false, st')
            ∧ getOperationStatusCode st' = SOLVER_RUN_STATUS_SUCCESS_SOLVABLE)
  ∧ (Z3_check theSolver = Z3_L_UNDEF →
     ∀ status,
       unknownStatus (Z3_solver_get_reason_unknown theSolver) = inr status →
       ∃ st', computeTruth query hs st = inr (false, negb hs, st')
              ∧ getOperationStatusCode st' = status
              ∧ stats st' = inc_queries (stats st)).
Proof.
  intros theSolver. unfold computeTruth. rewrite internalRunSolver_unfold.
  cbv zeta. fold theSolver. split; [|split].
  - intros ->. simpl. by eexists.
  - intros ->. simpl. by eexists.
  - intros -> status Hstatus. simpl. rewrite Hstatus. simpl.
    assert (Hfail : status = SOLVER_RUN_STATUS_TIMEOUT
                    ∨ status = SOLVER_RUN_STATUS_FAILURE).
    { unfold unknownStatus in Hstatus.
      destruct (decide (_ ∨ _)); [left; by injection Hstatus|].
      destruct (decide (_ = "unknown")); [right; by injection Hstatus|].
      discriminate. }
    unfold conclude. simpl. destruct Hfail as [-> | ->]; simpl; by eexists.
Qed.

(** X14: a satisfiability query runs on a session of its own.  The calls
    a query that returns adds to the context are, in this order: a new
    solver, the parameters, one assertion per constraint in the order of
    the query, the assertion of the negated goal, the check.  A second
    query adds its own session after the first, with the same parameters. *)
Theorem solver_sessions_follow_each_other
    query1 objects1 vals1 hs1 query2 objects2 vals2 hs2 st
    ok1 vals1' hs1' st1 ok2 vals2' hs2' st2 :
  internalRunSolver query1 objects1 vals1 hs1 st = inr (ok1, vals1', hs1', st1) →
  internalRunSolver query2 objects2 vals2 hs2 st1 = inr (ok2, vals2', hs2', st2) →
  ctx st1
  = ctx st
    ++ [call_mk_simple_solver; call_solver_set_params (solverParameters st)]
    ++ map (λ c, call_solver_assert (construct c)) (constraints query1)
    ++ [call_solver_assert (Z3_mk_not (construct (expr query1))); call_solver_check]
  ∧ ctx st2
    = ctx st ++ solverSession (solverParameters st) query1
             ++ solverSession (solverParameters st) query2.
Proof.
  intros H1 H2.
  pose proof (internalRunSolver_session _ _ _ _ _ _ _ _ _ H1) as Hc1.
  pose proof (internalRunSolver_session _ _ _ _ _ _ _ _ _ H2) as Hc2.
  pose proof (internalRunSolver_parameters _ _ _ _ _ _ _ _ _ H1) as Hp.
  split; [exact Hc1|]. by rewrite Hc2, Hc1, Hp, <- app_assoc.
Qed.

Lemma readValues_inv theModel objects : ∀ vals vals',
  readValues theModel objects vals = inr vals' → modelDecodes theModel objects.
Proof.
  induction objects as [|array objects IH]; intros vals vals' Hread.
  - constructor.
  - simpl in Hread.
    destruct (Z3_model_eval theModel (getInitialRead array 0)) as [v|] eqn:Hv;
      [|discriminate].
    destruct (is_numeral v); [|discriminate].
    destruct (decodeData v) as [|data] eqn:Hdata; [discriminate|]. simpl in Hread.
    constructor; [|by eapply IH].
    exists v. split; [done|].
    destruct (decodable_dec v) as [|Hnot]; [done|].
    rewrite (decodeData_not_decodable v Hnot) in Hdata. discriminate.
Qed.

(** X17: when a satisfiable check yields values.  With objects requested,
    [handleSolverResponse] returns on a satisfiable check exactly when the
    backend gives a model in which every requested array evaluates to a
    numeral whose numerator and denominator fit an [int]; otherwise it
    stops at one of its assertions, and no value is handed back, not even
    those of the arrays decoded before the failing one. *)
Theorem sat_response_returns_iff theSolver objs old hs :
  ((∃ r, handleSolverResponse theSolver Z3_L_TRUE (Some objs) (Some old) hs = inr r)
   ↔ ∃ theModel,
       Z3_solver_get_model theSolver = Some theModel ∧ modelDecodes theModel objs)
  ∧ (∀ f, handleSolverResponse theSolver Z3_L_TRUE (Some objs) (Some old) hs = inl f →
          ∃ msg, f = AssertionFailed msg).
Proof.
  split.
  - split.
    + intros (r & Hr). simpl in Hr.
      destruct (Z3_solver_get_model theSolver) as [theModel|]; [|discriminate].
      destruct (readValues theModel objs old) as [|vals'] eqn:Hread; [discriminate|].
      exists theModel. split; [done|]. by apply (readValues_inv _ _ _ _ Hread).
    + intros (theModel & Hmodel & Hdec). simpl. rewrite Hmodel.
      destruct (readValues_decodes theModel objs Hdec old) as (new & -> & _).
      by eexists.
  - intros f. simpl.
    destruct (Z3_solver_get_model theSolver) as [theModel|];
      [|intros [= <-]; by eexists].
    assert (Hfaults : ∀ objects vals f0,
              readValues theModel objects vals = inl f0 →
              ∃ msg, f0 = AssertionFailed msg).
    { induction objects as [|array objects IH]; intros vals f0; simpl;
        [discriminate|].
      destruct (Z3_model_eval theModel (getInitialRead array 0)) as [v|];
        [|intros [= <-]; by eexists].
      destruct (is_numeral v); [|intros [= <-]; by eexists].
      destruct (decodeData v) as [f1|data] eqn:Hdata; simpl.
      - intros [= <-]. destruct (decodable_dec v) as [Hdec|Hnot].
        + destruct (decodeData_decodable v Hdec) as (d & Hd & _). congruence.
        + rewrite (decodeData_not_decodable v Hnot) in Hdata.
          injection Hdata as <-. by eexists.
      - apply IH. }
    destruct (readValues theModel objs old) as [f0|vals'] eqn:Hread;
      [|discriminate].
    intros [= <-]. by apply (Hfaults objs old).
Qed.

End SolverFurther.

(** ** The timeout *)

Lemma double_to_unsigned_range x v :
  double_to_unsigned x = Some v → 0 ≤ v ≤ UINT_MAX.
Proof.
  destruct x as [sign| | |sign m e]; simpl; try discriminate.
  - intros [= <-]. unfold UINT_MAX. lia.
  - case_decide; [|discriminate]. by intros [= <-].
Qed.

(** X18: the edge cases of [setCoreSolverTimeout].  A NaN, the negative
    infinity and every negative number are refused by the assertion
    "timeout must be >= 0".  A zero of either sign sets the timeout
    parameter to [UINT_MAX], which stands for no timeout.  Whenever the
    call returns, the parameter it sets lies between 1 and [UINT_MAX] (a
    product that rounds to 0 milliseconds also gives [UINT_MAX]), and
    nothing else of the solver changes: not the priority, the status, the
    context or the counters. *)
Theorem timeout_edge_cases st :
  (∀ t, t = S754_nan ∨ t = S754_infinity true
        ∨ (∃ m e, t = S754_finite true m e) →
        Z3ErrorSolver.setCoreSolverTimeout t st
        = inl (AssertionFailed "timeout must be >= 0"))
  ∧ (∀ sign, ∃ st',
        Z3ErrorSolver.setCoreSolverTimeout (S754_zero sign) st = inr st'
        ∧ timeoutParam (Z3ErrorSolverImpl.solverParameters st') = UINT_MAX)
  ∧ (∀ t st',
        Z3ErrorSolver.setCoreSolverTimeout t st = inr st' →
        1 ≤ timeoutParam (Z3ErrorSolverImpl.solverParameters st') ≤ UINT_MAX
        ∧ priorityParam (Z3ErrorSolverImpl.solverParameters st')
          = priorityParam (Z3ErrorSolverImpl.solverParameters st)
        ∧ Z3ErrorSolverImpl.runStatusCode st' = Z3ErrorSolverImpl.runStatusCode st
        ∧ Z3ErrorSolverImpl.ctx st' = Z3ErrorSolverImpl.ctx st
        ∧ Z3ErrorSolverImpl.stats st' = Z3ErrorSolverImpl.stats st).
Proof.
  split; [|split].
  - intros t [-> | [-> | (m & e & ->)]]; reflexivity.
  - intros [|]; eexists; (split; [vm_compute; reflexivity|reflexivity]).
  - intros t st'. unfold Z3ErrorSolver.setCoreSolverTimeout.
    destruct (double_ge t (S754_zero false)); [|discriminate].
    destruct (double_to_unsigned _) as [v|] eqn:Hv; [|discriminate].
    apply double_to_unsigned_range in Hv.
    intros [= <-]. simpl. repeat split; try done;
      case_decide; unfold UINT_MAX in *; lia.
Qed.

(** X19: whole seconds.  For every whole number of seconds from 1 to 3600,
    [setCoreSolverTimeout] sets the timeout parameter to exactly that many
    thousands of milliseconds: the product by 1000, the addition of 0.5 and
    the truncation lose nothing. *)
Theorem whole_second_timeouts st (seconds : Z) :
  1 ≤ seconds ≤ 3600 →
  ∃ st',
    Z3ErrorSolver.setCoreSolverTimeout (double_of_int seconds) st = inr st'
    ∧ timeoutParam (Z3ErrorSolverImpl.solverParameters st') = 1000 * seconds.
Proof.
  intros Hrange.
  assert (Hall : forallb (setsMilliseconds st) (wholeSeconds 3600) = true)
    by (vm_compute; reflexivity).
  rewrite forallb_forall in Hall.
  assert (Hin : In seconds (wholeSeconds 3600)).
  { unfold wholeSeconds. apply in_map_iff. exists (Z.to_nat seconds).
    split; [lia|]. apply in_seq. lia. }
  specialize (Hall seconds Hin). unfold setsMilliseconds in Hall.
  destruct (Z3ErrorSolver.setCoreSolverTimeout (double_of_int seconds) st)
    as [|st']; [discriminate|].
  exists st'. split; [done|]. by apply bool_decide_eq_true in Hall.
Qed.

(** * Further concrete runs *)

(** X1 at the value at address 1, first derived from a word of [x], then
    asked for with a constant. *)
Lemma getError_memoised_witness :
  ∃ s',
    SymbolicError.getError (builder := allocBuilder)
      (Sample.word Sample.x) 1%N SymbolicError.initial
    = inr (Sample.errorByte Sample.x, s')
    ∧ SymbolicError.getError (builder := allocBuilder) (Constant 5 32) 1%N s'
      = inr (Sample.errorByte Sample.x, s').
Proof.
  eexists. split; [vm_compute; reflexivity|].
  apply (getError_memoised (builder := allocBuilder)
           (Sample.word Sample.x) 1%N SymbolicError.initial);
    [discriminate|vm_compute; reflexivity].
Defined.

(** X2 at a sum of a word of [x] and a sign-extended constant, and at a
    product. *)
Lemma getError_returns_iff_wellShaped_witness :
  unresolved 1%N SymbolicError.initial
  ∧ (∃ ret s',
       SymbolicError.getError (builder := allocBuilder)
         (Add (Sample.word Sample.x) (SExt (Constant 1 8) 32)) 1%N
         SymbolicError.initial
       = inr (ret, s'))
  ∧ (SymbolicError.getError (builder := allocBuilder)
       (Mul (Sample.word Sample.x) (Constant 2 32)) 1%N SymbolicError.initial
     = inl (AssertionFailed "malformed expression")
     ∨ SymbolicError.getError (builder := allocBuilder)
         (Mul (Sample.word Sample.x) (Constant 2 32)) 1%N SymbolicError.initial
       = inl NullDereference).
Proof.
  assert (Hu : unresolved 1%N SymbolicError.initial) by (right; left; reflexivity).
  split; [exact Hu|]. split.
  - exact (getError_returns_iff_wellShaped (builder := allocBuilder)
             (Add (Sample.word Sample.x) (SExt (Constant 1 8) 32)) 1%N
             SymbolicError.initial Hu).
  - exact (getError_returns_iff_wellShaped (builder := allocBuilder)
             (Mul (Sample.word Sample.x) (Constant 2 32)) 1%N
             SymbolicError.initial Hu).
Defined.

(** X3 at the first reference to [x] in the sample ledger. *)
Lemma getError_frame_witness :
  ∃ ret s',
    SymbolicError.getError (builder := allocBuilder)
      (Sample.word Sample.x) 8%N Sample2.tracked
    = inr (ret, s')
    ∧ SymbolicError.storedError s' = SymbolicError.storedError Sample2.tracked
    ∧ (∀ u, u ≠ 8%N →
            SymbolicError.valueErrorMap s' !! u
            = SymbolicError.valueErrorMap Sample2.tracked !! u).
Proof.
  eexists _, _. split; [vm_compute; reflexivity|].
  edestruct (getError_frame (builder := allocBuilder)
               (Sample.word Sample.x) 8%N Sample2.tracked) as (Hst & Hv & _);
    [vm_compute; reflexivity|].
  split; [exact Hst | exact Hv].
Defined.

(** X4 at the sample sequence of calls. *)
Lemma error_arrays_stay_consistent_witness :
  ∃ st',
    performAll (builder := allocBuilder) (host := Sample2.host)
      Sample2.calls Report.initial = inr st'
    ∧ errorArraysConsistent (Report.ledger st').
Proof.
  eexists. split; [vm_compute; reflexivity|].
  apply (error_arrays_stay_consistent (builder := allocBuilder)
           (host := Sample2.host) Sample2.calls).
  vm_compute. reflexivity.
Defined.

(** X5 at the product of the two sample values. *)
Lemma propagated_error_is_reused_witness :
  let sum :=
    Add (ZExt (Sample.errorByte Sample.x) 32) (ZExt (Sample.errorByte Sample.y) 32) in
  ∃ s',
    SymbolicError.propagateError (builder := allocBuilder) (Sample.binary OpMul)
      (Mul (Sample.word Sample.x) (Sample.word Sample.y))
      [Sample.word Sample.x; Sample.word Sample.y] SymbolicError.initial
    = inr (Some sum, s')
    ∧ SymbolicError.getError (builder := allocBuilder) (Constant 0 32) 3%N s'
      = inr (sum, s').
Proof.
  intros sum. eexists. split; [vm_compute; reflexivity|].
  apply (propagated_error_is_reused (builder := allocBuilder) (Sample.binary OpMul)
           (Mul (Sample.word Sample.x) (Sample.word Sample.y))
           [Sample.word Sample.x; Sample.word Sample.y] SymbolicError.initial);
    [discriminate|vm_compute; reflexivity].
Defined.

(** X6 at an instruction whose first operand is untracked and whose second
    has the error byte of [y]. *)
Lemma default_forwards_first_tracked_witness :
  SymbolicError.propagateError (builder := allocBuilder) Sample2.select
    (Sample.word Sample.y) [Constant 1 1; Sample.word Sample.y] Sample2.tracked
  = inr (Some (Sample.errorByte Sample.y),
         SymbolicError.recordError Sample2.select
           (Some (Sample.errorByte Sample.y)) Sample2.tracked).
Proof.
  apply (proj1 (default_forwards_first_tracked (builder := allocBuilder)
                  Sample2.select 57%N (Sample.word Sample.y)
                  [Constant 1 1; Sample.word Sample.y] Sample2.tracked eq_refl)
           1%nat 2%N).
  - simpl. lia.
  - reflexivity.
  - vm_compute. reflexivity.
  - intros j Hj. assert (j = 0%nat) as -> by lia. exists 7%N.
    split; vm_compute; reflexivity.
Defined.

(** X7 at the sum of the constants 10 and 20, with the error bytes of [x]
    and [y] as the errors of the operands. *)
Lemma sum_error_is_normalised_witness :
  let ea := ZExt (Sample.errorByte Sample.x) 32 in
  let eb := ZExt (Sample.errorByte Sample.y) 32 in
  ∃ s3,
    SymbolicError.propagateError (builder := allocBuilder) (Sample.binary OpAdd)
      (Constant 30 32) [Constant 10 32; Constant 20 32] Sample2.tracked
    = inr (Some (UDiv (Add (Mul ea (Constant 10 32)) (Mul eb (Constant 20 32)))
                   (Constant 30 32)), s3)
    ∧ SymbolicError.valueErrorMap s3 !! 3%N
      = Some (Some (UDiv (Add (Mul ea (Constant 10 32)) (Mul eb (Constant 20 32)))
                      (Constant 30 32))).
Proof.
  intros ea eb.
  edestruct (sum_error_is_normalised (builder := allocBuilder) (Sample.binary OpAdd)
               30 32%N [Constant 10 32; Constant 20 32] Sample2.tracked
               (Constant 10 32) (Sample.errorByte Sample.x)
               (Constant 20 32) (Sample.errorByte Sample.y))
    as (s3 & Hrun & Hmap).
  - reflexivity.
  - lia.
  - exists 1%N, 2%N. eexists. repeat split; vm_compute; reflexivity.
  - exists s3. split; [exact Hrun | exact Hmap].
Defined.

(** X9 at a load for the value at address 2, which has a cached error. *)
Lemma loaded_error_is_reused_witness :
  ∃ s',
    SymbolicError.executeLoad 2%N (Constant 4096 64) Sample2.tracked
    = inr (Sample.errorByte Sample.x, s')
    ∧ SymbolicError.getError (builder := allocBuilder) (Sample.word Sample.y) 2%N s'
      = inr (Sample.errorByte Sample.x, s').
Proof.
  eexists. split; [vm_compute; reflexivity|].
  apply (loaded_error_is_reused (builder := allocBuilder) 2%N (Constant 4096 64)
           Sample2.tracked);
    [discriminate|vm_compute; reflexivity].
Defined.

(** X10 at the bound on the untracked value at address 1, followed by a
    cast of that value. *)
Lemma bound_output_leaves_null_entry_witness :
  ∃ st',
    Report.outputErrorBound (host := Sample2.host) Sample2.site (double_of_int 1)
      Report.initial = inr st'
    ∧ SymbolicError.valueErrorMap (Report.ledger st') = <[1%N := None]> ∅
    ∧ SymbolicError.propagateError (builder := allocBuilder) Sample2.cast
        (Sample.word Sample.x) [Sample.word Sample.x] (Report.ledger st')
      = inr (None, SymbolicError.recordError Sample2.cast None (Report.ledger st'))
    ∧ SymbolicError.propagateError (builder := allocBuilder) Sample2.cast
        (Sample.word Sample.x) [Sample.word Sample.x] SymbolicError.initial
      = inr (Some (Constant 0 8),
             SymbolicError.recordError Sample2.cast (Some (Constant 0 8))
               SymbolicError.initial).
Proof.
  eexists. split; [vm_compute; reflexivity|].
  edestruct (bound_output_leaves_null_entry (builder := allocBuilder)
               (host := Sample2.host) Sample2.site (double_of_int 1)
               Report.initial) as (Hmap & _ & _ & _ & Hdefault);
    [reflexivity|reflexivity|reflexivity|vm_compute; reflexivity|].
  split; [exact Hmap|].
  destruct (Hdefault Sample2.cast 33%N (Sample.word Sample.x)
              (Sample.word Sample.x) [] eq_refl eq_refl) as (Hafter & Hbefore).
  split; [exact Hafter | exact (Hbefore eq_refl eq_refl)].
Defined.

(** X11 at the sample sequence of calls, which writes two entries. *)
Lemma report_is_append_only_witness :
  ∃ st',
    performAll (builder := allocBuilder) (host := Sample2.host)
      Sample2.calls Report.initial = inr st'
    ∧ ∃ suffix,
        Report.outputString st' = Report.outputString Report.initial +:+ suffix.
Proof.
  eexists. split; [vm_compute; reflexivity|].
  apply (proj1 (report_is_append_only (builder := allocBuilder)
                  (host := Sample2.host)) Sample2.calls Report.initial).
  vm_compute. reflexivity.
Defined.

(** X12 at a validity query on an unsatisfiable check. *)
Lemma query_accounting_witness :
  ∃ st',
    Z3ErrorSolverImpl.internalRunSolver (backend := Sample2.unsatisfiable)
      Sample.query None None true Z3ErrorSolverImpl.initial
    = inr (true, None, false, st')
    ∧ queries (Z3ErrorSolverImpl.stats st') = 1%N
    ∧ queryCounterexamples (Z3ErrorSolverImpl.stats st') = 0%N
    ∧ queriesValid (Z3ErrorSolverImpl.stats st') = 1%N
    ∧ queriesInvalid (Z3ErrorSolverImpl.stats st') = 0%N.
Proof.
  eexists. split; [vm_compute; reflexivity|].
  edestruct (proj1 (query_accounting (backend := Sample2.unsatisfiable)
                      Sample.query Z3ErrorSolverImpl.initial)
               None None true) as (Hq & Hqc & _ & Hv & Hi & _);
    [vm_compute; reflexivity|].
  split; [exact Hq|]. split; [exact Hqc|]. split; [exact Hv | exact Hi].
Defined.

(** X13 at a validity query on an unsatisfiable check. *)
Lemma computeTruth_verdict_witness :
  ∃ st',
    Z3ErrorSolverImpl.computeTruth (backend := Sample2.unsatisfiable)
      Sample.query true Z3ErrorSolverImpl.initial
    = inr (true, true, st')
    ∧ getOperationStatusCode st' = SOLVER_RUN_STATUS_SUCCESS_UNSOLVABLE.
Proof.
  apply (proj1 (computeTruth_verdict (backend := Sample2.unsatisfiable)
                  Sample.query true Z3ErrorSolverImpl.initial)).
  reflexivity.
Defined.

(** X14 at two validity queries in a row. *)
Lemma solver_sessions_follow_each_other_witness :
  ∃ st1 st2,
    Z3ErrorSolverImpl.internalRunSolver (backend := Sample2.unsatisfiable)
      Sample.query None None true Z3ErrorSolverImpl.initial
    = inr (true, None, false, st1)
    ∧ Z3ErrorSolverImpl.internalRunSolver (backend := Sample2.unsatisfiable)
        (mkQuery [] Sample.goal) None None true st1
      = inr (true, None, false, st2)
    ∧ Z3ErrorSolverImpl.ctx st2
      = [] ++ solverSession (mkParams UINT_MAX "pareto") Sample.query
           ++ solverSession (mkParams UINT_MAX "pareto") (mkQuery [] Sample.goal).
Proof.
  eexists _, _. split; [vm_compute; reflexivity|].
  split; [vm_compute; reflexivity|].
  eapply (solver_sessions_follow_each_other (backend := Sample2.unsatisfiable)
            Sample.query None None true (mkQuery [] Sample.goal) None None true
            Z3ErrorSolverImpl.initial);
    vm_compute; reflexivity.
Defined.

(** X15 at the integer [2 ^ 31], one past the largest [int]. *)
Lemma decoders_accept_int_sized_numerals_witness :
  ¬ decodable (Z3_numeral (2 ^ 31) 1)
  ∧ Z3ErrorSolverImpl.decodeData (Z3_numeral (2 ^ 31) 1)
    = inl (AssertionFailed "failed to get value back")
  ∧ Z3ErrorSolverImpl.decodeUpperBound (Z3_numeral (2 ^ 31) 1)
    = inl (AssertionFailed "failed to get value back").
Proof.
  assert (Hnot : ¬ decodable (Z3_numeral (2 ^ 31) 1)).
  { intros (num & den & Heq & Hnum & _). injection Heq as <- <-.
    unfold INT_MAX in Hnum. lia. }
  split; [exact Hnot|].
  exact (proj2 (proj2 (decoders_accept_int_sized_numerals (Z3_numeral (2 ^ 31) 1)))
           Hnot).
Defined.

(** X16 at the integer -2: the bytes 254, 255, ..., 255 denote
    [2 ^ 64 - 2]. *)
Lemma decoded_buffer_reads_back_witness :
  Z3ErrorSolverImpl.decodeData (Z3_numeral (-2) 1)
  = inr [254; 255; 255; 255; 255; 255; 255; 255]
  ∧ fromLittleEndian [254; 255; 255; 255; 255; 255; 255; 255] = (-2) mod 2 ^ 64.
Proof.
  split; [reflexivity|].
  exact (proj2 (proj2 (decoded_buffer_reads_back (Z3_numeral (-2) 1)
                         [254; 255; 255; 255; 255; 255; 255; 255] eq_refl))).
Defined.

(** X17 at a model that values every array as 1/3. *)
Lemma sat_response_returns_iff_witness :
  ∃ r,
    Z3ErrorSolverImpl.handleSolverResponse (backend := Sample2.third) []
      Z3_L_TRUE (Some [Sample.x; Sample.y]) (Some []) false = inr r.
Proof.
  apply (proj1 (sat_response_returns_iff (backend := Sample2.third) []
                  [Sample.x; Sample.y] [] false)).
  exists (λ _, Some (Z3_numeral 1 3)). split; [reflexivity|].
  repeat constructor;
    (exists (Z3_numeral 1 3); split; [reflexivity|];
     exists 1, 3%positive; unfold INT_MIN, INT_MAX; repeat split; lia).
Defined.

(** X18 at the timeout -1. *)
Lemma timeout_edge_cases_witness :
  Z3ErrorSolver.setCoreSolverTimeout (double_of_int (-1)) Z3ErrorSolverImpl.initial
  = inl (AssertionFailed "timeout must be >= 0").
Proof.
  apply (proj1 (timeout_edge_cases Z3ErrorSolverImpl.initial)).
  right. right. vm_compute. eexists _, _. reflexivity.
Defined.

(** X19 at a timeout of 30 seconds. *)
Lemma whole_second_timeouts_witness :
  1 ≤ 30 ≤ 3600
  ∧ ∃ st',
      Z3ErrorSolver.setCoreSolverTimeout (double_of_int 30) Z3ErrorSolverImpl.initial
      = inr st'
      ∧ timeoutParam (Z3ErrorSolverImpl.solverParameters st') = 1000 * 30.
Proof.
  split; [lia|].
  apply (whole_second_timeouts Z3ErrorSolverImpl.initial 30). lia.
Defined.
